(** * GitNifty: the [Git] command facade

    A shallow embedding of the [Git] class of gitnifty (the TypeScript
    source of the package entry point) and the properties of its
    invocation strings, of its command executor and of its fail-soft
    probes.

    JavaScript strings are sequences of UTF-16 code units; a promise is a
    computation over the state of the outside world (the file system and the
    processes the facade spawns) that settles as resolved or rejected. *)

From Stdlib Require Import List NArith ZArith Bool String Ascii Lia.
Import ListNotations.

Set Implicit Arguments.

(** ** JavaScript strings and the [String.prototype] / [Array.prototype]
       methods the facade calls *)

Module Js.

(** A UTF-16 code unit. *)
Definition char : Type := N.

Definition jstring : Type := list char.

(** A source literal (all of the facade's literals are ASCII). *)
Definition lit (s : string) : jstring :=
  map N_of_ascii (list_ascii_of_string s).
Arguments lit s%_string.

Definition space : char := 32%N.
Definition newline : char := 10%N.
Definition dquote : char := 34%N.
Definition backslash : char := 92%N.

(** ECMAScript's WhiteSpace and LineTerminator code points, the ones
    [String.prototype.trim] removes. *)
Definition is_ws (c : char) : bool :=
  ((9 <=? c) && (c <=? 13)             (* TAB, LF, VT, FF, CR *)
   || (c =? 32) || (c =? 160)          (* SP, NBSP *)
   || (c =? 5760)                      (* U+1680 *)
   || ((8192 <=? c) && (c <=? 8202))   (* U+2000 .. U+200A *)
   || (c =? 8232) || (c =? 8233)       (* LS, PS *)
   || (c =? 8239) || (c =? 8287)       (* U+202F, U+205F *)
   || (c =? 12288) || (c =? 65279))%N. (* U+3000, BOM *)

Fixpoint trimStart (s : jstring) : jstring :=
  match s with
  | [] => []
  | c :: s' => if is_ws c then trimStart s' else s
  end.

Definition trimEnd (s : jstring) : jstring := rev (trimStart (rev s)).

(** [s.trim()] *)
Definition trim (s : jstring) : jstring := trimEnd (trimStart s).

(** A string is truthy when it is not empty. *)
Definition truthy (s : jstring) : bool :=
  match s with [] => false | _ :: _ => true end.

(** [s.startsWith(p)] *)
Fixpoint startsWith (p s : jstring) : bool :=
  match p, s with
  | [], _ => true
  | _ :: _, [] => false
  | a :: p', b :: s' => (a =? b)%N && startsWith p' s'
  end.

(** [s.includes(p)] *)
Fixpoint includes (p s : jstring) : bool :=
  startsWith p s ||
  match s with
  | [] => false
  | _ :: s' => includes p s'
  end.

(** [s.replace(p, r)] with a string pattern [p] and a replacement [r] that
    holds no [$]: the first occurrence of [p] is replaced, and [s] is
    returned as it is when [p] does not occur. *)
Fixpoint replace (p r s : jstring) : jstring :=
  if startsWith p s then r ++ skipn (List.length p) s
  else match s with
       | [] => []
       | c :: s' => c :: replace p r s'
       end.

(** [s.replace(/c/g, r)] for a pattern that is one literal code unit [c] and
    a replacement [r] that holds no [$]: every occurrence is replaced. *)
Definition replace_g (c : char) (r s : jstring) : jstring :=
  flat_map (fun x => if (x =? c)%N then r else [x]) s.

(** [s.split(sep)] for a separator of one code unit: the pieces between the
    occurrences of [sep]; a string without [sep] (the empty one too) is one
    piece. *)
Fixpoint split (sep : char) (s : jstring) : list jstring :=
  match s with
  | [] => [[]]
  | c :: s' =>
      if (c =? sep)%N then [] :: split sep s'
      else match split sep s' with
           | [] => [[c]]
           | piece :: rest => (c :: piece) :: rest
           end
  end.

(** [a.join(sep)] *)
Fixpoint join (sep : jstring) (a : list jstring) : jstring :=
  match a with
  | [] => []
  | [x] => x
  | x :: rest => x ++ sep ++ join sep rest
  end.

(** [a.filter(Boolean)] on an array of strings. *)
Definition filter_Boolean (a : list jstring) : list jstring :=
  filter truthy a.

End Js.
Import Js.

(** ** Values the facade's overloaded parameters take at run time *)

(** A parameter typed [string | T[]]: a string or an array of strings,
    told apart by [Array.isArray]. An omitted (undefined) argument is [None]
    of [option jsvalue]. *)
Inductive jsvalue : Type :=
  | Str (s : jstring)
  | Arr (a : list jstring).

(** An element of an array literal that may hold [undefined]. *)
Definition defined (s : jstring) : option jstring := Some s.

(** [a.filter(Boolean)]: undefined and empty strings are dropped. *)
Definition filterBoolean (a : list (option jstring)) : list jstring :=
  flat_map (fun x => match x with
                     | Some s => if truthy s then [s] else []
                     | None => []
                     end) a.

(** ** The flag types *)

Inductive ResetFlag : Type :=
  | reset_soft | reset_mixed | reset_hard | reset_merge | reset_keep
  | reset_quiet | reset_verbose.

Inductive CommitFlag : Type :=
  | commit_amend | commit_no_edit | commit_allow_empty | commit_no_verify
  | commit_signoff | commit_verbose.

Inductive PushFlag : Type :=
  | push_force | push_force_with_lease | push_tags | push_follow_tags
  | push_set_upstream | push_dry_run | push_delete | push_all.

Inductive TagFlag : Type :=
  | tag_annotate | tag_delete | tag_force | tag_list.

Inductive MergeFlag : Type :=
  | merge_no_ff | merge_ff_only | merge_squash | merge_no_commit
  | merge_commit | merge_edit | merge_no_edit | merge_strategy_ours
  | merge_strategy_recursive.

Inductive CheckoutFlag : Type :=
  | checkout_b | checkout_B | checkout_detach | checkout_force
  | checkout_orphan.

Inductive BranchFlag : Type :=
  | branch_d | branch_D | branch_m | branch_M | branch_list
  | branch_show_current.

(** A flag type is a closed set of string literals: [token] is the literal a
    member stands for. *)
Class FlagType (F : Type) : Type := { token : F -> jstring }.

#[global] Instance ResetFlag_type : FlagType ResetFlag :=
  {| token f := match f with
                | reset_soft => lit "--soft"
                | reset_mixed => lit "--mixed"
                | reset_hard => lit "--hard"
                | reset_merge => lit "--merge"
                | reset_keep => lit "--keep"
                | reset_quiet => lit "--quiet"
                | reset_verbose => lit "--verbose"
                end |}.

#[global] Instance CommitFlag_type : FlagType CommitFlag :=
  {| token f := match f with
                | commit_amend => lit "--amend"
                | commit_no_edit => lit "--no-edit"
                | commit_allow_empty => lit "--allow-empty"
                | commit_no_verify => lit "--no-verify"
                | commit_signoff => lit "--signoff"
                | commit_verbose => lit "--verbose"
                end |}.

#[global] Instance PushFlag_type : FlagType PushFlag :=
  {| token f := match f with
                | push_force => lit "--force"
                | push_force_with_lease => lit "--force-with-lease"
                | push_tags => lit "--tags"
                | push_follow_tags => lit "--follow-tags"
                | push_set_upstream => lit "--set-upstream"
                | push_dry_run => lit "--dry-run"
                | push_delete => lit "--delete"
                | push_all => lit "--all"
                end |}.

#[global] Instance TagFlag_type : FlagType TagFlag :=
  {| token f := match f with
                | tag_annotate => lit "--annotate"
                | tag_delete => lit "--delete"
                | tag_force => lit "--force"
                | tag_list => lit "--list"
                end |}.

#[global] Instance MergeFlag_type : FlagType MergeFlag :=
  {| token f := match f with
                | merge_no_ff => lit "--no-ff"
                | merge_ff_only => lit "--ff-only"
                | merge_squash => lit "--squash"
                | merge_no_commit => lit "--no-commit"
                | merge_commit => lit "--commit"
                | merge_edit => lit "--edit"
                | merge_no_edit => lit "--no-edit"
                | merge_strategy_ours => lit "--strategy=ours"
                | merge_strategy_recursive => lit "--strategy=recursive"
                end |}.

#[global] Instance CheckoutFlag_type : FlagType CheckoutFlag :=
  {| token f := match f with
                | checkout_b => lit "-b"
                | checkout_B => lit "-B"
                | checkout_detach => lit "--detach"
                | checkout_force => lit "--force"
                | checkout_orphan => lit "--orphan"
                end |}.

#[global] Instance BranchFlag_type : FlagType BranchFlag :=
  {| token f := match f with
                | branch_d => lit "-d"
                | branch_D => lit "-D"
                | branch_m => lit "-m"
                | branch_M => lit "-M"
                | branch_list => lit "--list"
                | branch_show_current => lit "--show-current"
                end |}.

(** The run-time value of a well-typed argument [F | F[]]. *)
Definition oneFlag {F : Type} `{FlagType F} (f : F) : jsvalue :=
  Str (token f).
Definition flagList {F : Type} `{FlagType F} (fs : list F) : jsvalue :=
  Arr (map token fs).

(** ** The invocation strings

    Each facade method assembles one invocation string and hands it to
    [runCommand]; the assembly of each method is given here under the
    method's name, with the names of the method's local variables. *)

(** A default parameter: the default replaces an omitted argument. *)
Definition param {A : Type} (arg : option A) (dflt : A) : A :=
  match arg with
  | Some v => v
  | None => dflt
  end.

Definition setUserName_invocation (name : jstring) : jstring :=
  lit "git config --global user.name " ++ [dquote] ++ name ++ [dquote]
    ++ lit " ".

Definition setUserEmail_invocation (email : jstring) : jstring :=
  lit "git config --global user.email " ++ [dquote] ++ email ++ [dquote].

(** [add(path: string | string[] = ".")] *)
Definition add_invocation (path : option jsvalue) : jstring :=
  let path := param path (Str (lit ".")) in
  let normalizedPath :=
    match path with
    | Arr a => join (lit " ") a
    | Str s => s
    end in
  lit "git add " ++ normalizedPath ++ lit " ".

(** [reset(hashValue: string, flag?: ResetFlag)] *)
Definition reset_invocation (hashValue : jstring) (flag : option jstring)
  : jstring :=
  let parts := filterBoolean [defined (lit "git reset"); flag;
                              defined hashValue] in
  join (lit " ") parts.

(** [restore(target: string | string[] = ".", flag?: RestoreFlag)] *)
Definition restore_invocation (target : option jsvalue) (flag : option jstring)
  : jstring :=
  let target := param target (Str (lit ".")) in
  let normalizedTarget :=
    match target with
    | Arr a => join (lit " ") a
    | Str s => s
    end in
  let flagPart :=
    match flag with
    | Some f => if truthy f then lit " " ++ f else []
    | None => []
    end in
  lit "git restore" ++ flagPart ++ lit " " ++ normalizedTarget.

(** [commit(message: string, flags?: CommitFlag | CommitFlag[])] *)
Definition commit_invocation (message : jstring) (flags : option jsvalue)
  : jstring :=
  let flagsPart :=
    match flags with
    | Some (Arr a) => lit " " ++ join (lit " ") a
    | Some (Str f) => if truthy f then lit " " ++ f else []
    | None => []
    end in
  lit "git commit -m " ++ [dquote]
    ++ replace_g dquote [backslash; dquote] message ++ [dquote] ++ flagsPart.

(** [clone(url: string, dir: string = "")] *)
Definition clone_invocation (url : jstring) (dir : option jstring) : jstring :=
  let dir := param dir [] in
  lit "git clone " ++ url ++ lit " " ++ dir.

(** [push(remote: string | PushFlag[] = "origin", branch = "",
          flags: PushFlag | PushFlag[] = [])] *)
Definition push_invocation (remote branch flags : option jsvalue) : jstring :=
  let remote := param remote (Str (lit "origin")) in
  let branch := param branch (Str []) in
  let flags := param flags (Arr []) in
  let '(finalRemote, finalBranch, finalFlags) :=
    match remote with
    | Arr a => (lit "origin", [], a)
    | Str r =>
        match branch with
        | Arr b => (r, [], b)
        | Str b =>
            (r, b,
             match flags with
             | Arr fl => fl
             | Str f => filterBoolean [defined f]
             end)
        end
    end in
  let flagStr :=
    match finalFlags with
    | [] => []
    | _ :: _ => join (lit " ") finalFlags ++ lit " "
    end in
  let branchRef :=
    if truthy finalBranch then finalRemote ++ lit " " ++ finalBranch
    else finalRemote in
  lit "git push " ++ flagStr ++ branchRef.

(** The [flagStr] of [tag], [merge] and [checkout], which the three methods
    compute by the same expression. *)
Definition flagStr (flags : option jsvalue) : jstring :=
  match flags with
  | Some (Arr a) => join (lit " ") a ++ lit " "
  | Some (Str f) => if truthy f then f ++ lit " " else []
  | None => []
  end.

(** [tag(value: string, flags?: TagFlag | TagFlag[])] *)
Definition tag_invocation (value : jstring) (flags : option jsvalue)
  : jstring :=
  lit "git tag " ++ flagStr flags ++ value.

(** [merge(branchName: string, flags?: MergeFlag | MergeFlag[])] *)
Definition merge_invocation (branchName : jstring) (flags : option jsvalue)
  : jstring :=
  lit "git merge " ++ flagStr flags ++ branchName.

(** [checkout(target: string, flags?: CheckoutFlag | CheckoutFlag[])] *)
Definition checkout_invocation (target : jstring) (flags : option jsvalue)
  : jstring :=
  lit "git checkout " ++ flagStr flags ++ target.

(** [branch(name?: string, flags: BranchFlag | BranchFlag[] = [])] *)
Definition branch_invocation (name : option jstring) (flags : option jsvalue)
  : jstring :=
  let flags := param flags (Arr []) in
  let flagArr :=
    match flags with
    | Arr a => a
    | Str f => if truthy f then [f] else []
    end in
  let parts := filterBoolean ([defined (lit "git branch")]
                                ++ map defined flagArr ++ [name]) in
  join (lit " ") parts.

(** The body of [getDefaultBranchName] after its [await]: the default
    branch read from the text [git branch -r] printed. *)
Definition defaultBranchOf (branches : jstring) : jstring :=
  let defaultBranch :=
    find (fun branch => includes (lit "origin/HEAD") branch)
         (split newline branches) in
  match defaultBranch with
  | Some line =>
      if truthy line
      then trim (replace (lit "origin/HEAD -> origin/") [] line)
      else lit "main"
  | None => lit "main"
  end.

(** ** Promises

    A promise is run against the state of the world and settles: it resolves
    with a value or rejects with a reason. [await] in an [async] function is
    [bind]; a rejection passes through the awaits after it. *)

Inductive Settled (E A : Type) : Type :=
  | Resolved (a : A)
  | Rejected (e : E).
Arguments Resolved {E A} a.
Arguments Rejected {E A} e.

Definition Promise (W E A : Type) : Type := W -> Settled E A * W.

Definition ret {W E A : Type} (a : A) : Promise W E A :=
  fun w => (Resolved a, w).

Definition bind {W E A B : Type} (p : Promise W E A)
  (k : A -> Promise W E B) : Promise W E B :=
  fun w =>
    match p w with
    | (Resolved a, w') => k a w'
    | (Rejected e, w') => (Rejected e, w')
    end.

(** [try { body } catch { handler }] around awaited promises. *)
Definition try_catch {W E A : Type} (body : Promise W E A)
  (handler : E -> Promise W E A) : Promise W E A :=
  fun w =>
    match body w with
    | (Resolved a, w') => (Resolved a, w')
    | (Rejected e, w') => handler e w'
    end.

Declare Scope promise_scope.
Delimit Scope promise_scope with promise.
Notation "'await' x <- p ;; k" := (bind p (fun x => k))
  (at level 10, x name, p at level 100, k at level 200) : promise_scope.

(** ** The subprocess boundary: [child_process.exec] *)

(** The facade calls [exec(cmd, { cwd }, callback)] and nothing else of
    Node. A call either throws at once, because [exec] refuses its arguments
    (a command that holds the code unit 0, say) and no child is started, or
    it runs the command in a shell to its end and calls back once with
    [(error, stdout, stderr)]. *)

(** How the child process ended: it exited with a status, a signal ended
    it, or it could not be spawned. *)
Inductive Termination : Type :=
  | Exited (status : Z)
  | Killed (signal : jstring)
  | SpawnFailure.

(** What a run of the command leaves: how the child ended, whether one of
    its output channels went over [maxBuffer] (the facade passes [cwd]
    only, so the limit is the default of [exec], 1 MiB), and the text of the
    two channels as [exec] hands it to the callback. *)
Record Subprocess : Type := {
  termination : Termination;
  overflow : bool;
  stdout : jstring;
  stderr : jstring
}.

(** The [error] argument of the [exec] callback, by its cause. *)
Inductive ExecException : Type :=
  | MaxBufferExceeded
  | ExitStatus (status : Z)
  | Signal (signal : jstring)
  | SpawnError.

(** [error] is [null] (here [None]) when the child exited with status zero
    and no channel went over the limit, an exception object otherwise. *)
Definition exec_error (p : Subprocess) : option ExecException :=
  if overflow p then Some MaxBufferExceeded
  else match termination p with
       | Exited 0 => None
       | Exited status => Some (ExitStatus status)
       | Killed sig => Some (Signal sig)
       | SpawnFailure => Some SpawnError
       end.

(** The error object [exec] throws when it refuses its arguments: one of
    Node's own (a [TypeError] with a code), not an [Error] of the facade. *)
Record NodeError : Type := {
  node_code : jstring;
  node_message : jstring
}.

(** What a call of [exec] does. *)
Inductive ExecResult : Type :=
  | Threw (x : NodeError)
  | CalledBack (child : Subprocess).

(** [new Error(message)] *)
Record Error : Type := { message : jstring }.

(** The values the promises of the facade reject with: an [Error] the
    facade created, a string, or the error object [exec] threw. *)
Inductive Reason : Type :=
  | OfError (e : Error)
  | OfString (s : jstring)
  | OfNode (x : NodeError).

(** The facade instance: its one private field. *)
Record Git : Type := { cwd : jstring }.

Record GitOptions : Type := { options_cwd : option jstring }.

(** [constructor(options)]: [this.cwd = options.cwd || process.cwd()]. *)
Definition new_Git (process_cwd : jstring) (options : GitOptions) : Git :=
  {| cwd := match options_cwd options with
            | Some c => if truthy c then c else process_cwd
            | None => process_cwd
            end |}.

(** ** The facade (the current source of the [Git] class) *)

Section Facade.

(** The state of the world outside the program, and a call of [exec] for a
    command and a working directory in that world. *)
Variable World : Type.
Variable exec : jstring -> jstring -> World -> ExecResult * World.

Local Open Scope promise_scope.

Local Abbreviation P := (Promise World Reason).

(** [private tryCommand = async (cmd: () => Promise<string>) => ...] *)
Definition tryCommand (cmd : unit -> P jstring) : P bool :=
  try_catch (await _ <- cmd tt ;; ret true) (fun _ => ret false).

(** [private runCommand(cmd: string)]. What [exec] throws inside the
    executor of [new Promise] rejects the promise. *)
Definition runCommand (this : Git) (cmd : jstring) : P jstring :=
  fun w =>
    match exec cmd (cwd this) w with
    | (Threw x, w') => (Rejected (OfNode x), w')
    | (CalledBack child, w') =>
        match exec_error child with
        | Some _ =>
            (Rejected
               (OfError {| message := lit "Error executing command: " ++ cmd
                                        ++ [newline] ++ stderr child |}),
             w')
        | None => (Resolved (trim (stdout child)), w')
        end
    end.

Definition getUserName (this : Git) : P jstring :=
  runCommand this (lit "git config user.name").

Definition setUserName (this : Git) (name : jstring) : P jstring :=
  runCommand this (setUserName_invocation name).

Definition getUserEmail (this : Git) : P jstring :=
  runCommand this (lit "git config user.email").

Definition setUserEmail (this : Git) (email : jstring) : P jstring :=
  runCommand this (setUserEmail_invocation email).

Definition hasNoUnstagedChanges (this : Git) : P bool :=
  tryCommand (fun _ => runCommand this (lit "git diff --quiet")).

Definition hasNoStagedChanges (this : Git) : P bool :=
  tryCommand (fun _ => runCommand this (lit "git diff --cached --quiet")).

Definition isWorkingDirClean (this : Git) : P bool :=
  await unstagedClean <- hasNoUnstagedChanges this ;;
  await stagedClean <- hasNoStagedChanges this ;;
  ret (unstagedClean && stagedClean).

Definition hasUpstreamBranch (this : Git) : P bool :=
  tryCommand (fun _ =>
    runCommand this
      (lit "git rev-parse --abbrev-ref --symbolic-full-name @{u}")).

Definition getCurrentBranchName (this : Git) : P jstring :=
  runCommand this (lit "git rev-parse --abbrev-ref HEAD").

Definition getDefaultBranchName (this : Git) : P jstring :=
  await branches <- runCommand this (lit "git branch -r") ;;
  ret (defaultBranchOf branches).

Definition add (this : Git) (path : option jsvalue) : P jstring :=
  runCommand this (add_invocation path).

Definition reset (this : Git) (hashValue : jstring) (flag : option jstring)
  : P jstring :=
  runCommand this (reset_invocation hashValue flag).

Definition restore (this : Git) (target : option jsvalue)
  (flag : option jstring) : P jstring :=
  runCommand this (restore_invocation target flag).

Definition commit (this : Git) (message : jstring)
  (flags : option jsvalue) : P Git :=
  await _ <- runCommand this (commit_invocation message flags) ;;
  ret this.

Definition init (this : Git) : P Git :=
  await _ <- runCommand this (lit "git init") ;;
  ret this.

Definition clone (this : Git) (url : jstring) (dir : option jstring)
  : P Git :=
  await _ <- runCommand this (clone_invocation url dir) ;;
  ret this.

Definition push (this : Git) (remote branch flags : option jsvalue)
  : P Git :=
  await _ <- runCommand this (push_invocation remote branch flags) ;;
  ret this.

Definition tag (this : Git) (value : jstring) (flags : option jsvalue)
  : P jstring :=
  runCommand this (tag_invocation value flags).

Definition merge (this : Git) (branchName : jstring)
  (flags : option jsvalue) : P jstring :=
  runCommand this (merge_invocation branchName flags).

Definition checkout (this : Git) (target : jstring)
  (flags : option jsvalue) : P Git :=
  await _ <- runCommand this (checkout_invocation target flags) ;;
  ret this.

Definition branch (this : Git) (name : option jstring)
  (flags : option jsvalue) : P jstring :=
  runCommand this (branch_invocation name flags).

End Facade.

(** ** The facade of [src/index.ts]

    The package entry point holds the class with its query methods only; its
    [runCommand] rejects with the diagnostic string itself, where the current
    source wraps it in an [Error]. *)

Module IndexTs.
Section Facade.

Variable World : Type.
Variable exec : jstring -> jstring -> World -> ExecResult * World.

Local Open Scope promise_scope.

Local Abbreviation P := (Promise World Reason).

(** [private tryCommand = async <T>(cmd: () => Promise<T>)] *)
Definition tryCommand {T : Type} (cmd : unit -> P T) : P bool :=
  try_catch (await _ <- cmd tt ;; ret true) (fun _ => ret false).

(** [private runCommand(cmd: string): Promise<string>] *)
Definition runCommand (this : Git) (cmd : jstring) : P jstring :=
  fun w =>
    match exec cmd (cwd this) w with
    | (Threw x, w') => (Rejected (OfNode x), w')
    | (CalledBack child, w') =>
        match exec_error child with
        | Some _ =>
            (Rejected
               (OfString (lit "Error executing command: " ++ cmd ++ [newline]
                            ++ stderr child)),
             w')
        | None => (Resolved (trim (stdout child)), w')
        end
    end.

Definition getUserName (this : Git) : P jstring :=
  runCommand this (lit "git config user.name").

Definition getUserEmail (this : Git) : P jstring :=
  runCommand this (lit "git config user.email").

Definition hasNoUnstagedChanges (this : Git) : P bool :=
  tryCommand (fun _ => runCommand this (lit "git diff --quiet")).

Definition hasNoStagedChanges (this : Git) : P bool :=
  tryCommand (fun _ => runCommand this (lit "git diff --cached --quiet")).

Definition isWorkingDirClean (this : Git) : P bool :=
  await unstagedClean <- hasNoUnstagedChanges this ;;
  await stagedClean <- hasNoStagedChanges this ;;
  ret (unstagedClean && stagedClean).

Definition hasUpstreamBranch (this : Git) : P bool :=
  tryCommand (fun _ =>
    runCommand this
      (lit "git rev-parse --abbrev-ref --symbolic-full-name @{u}")).

Definition getCurrentBranchName (this : Git) : P jstring :=
  runCommand this (lit "git rev-parse --abbrev-ref HEAD").

Definition getDefaultBranchName (this : Git) : P jstring :=
  await branches <- runCommand this (lit "git branch -r") ;;
  ret (defaultBranchOf branches).

End Facade.
End IndexTs.

(** ** A world for running the facade on concrete inputs

    The world is the list of the calls of [exec] so far, latest first, and a
    script that decides what each call does from the invocation, the
    working directory and the number of calls before it. *)

Module Scripted.

Definition World : Type := list (jstring * jstring).

Definition Script : Type := jstring -> jstring -> nat -> ExecResult.

Definition exec (script : Script) (cmd dir : jstring) (w : World)
  : ExecResult * World :=
  (script cmd dir (List.length w), (cmd, dir) :: w).

Definition succeed (out : jstring) : ExecResult :=
  CalledBack {| termination := Exited 0; overflow := false;
                stdout := out; stderr := [] |}.

Definition failing (status : Z) (err : jstring) : ExecResult :=
  CalledBack {| termination := Exited status; overflow := false;
                stdout := []; stderr := err |}.

(** A child that exits with status zero after it printed more than the
    limit: [exec] calls back with what it kept of the output. *)
Definition overflowing (kept : jstring) : ExecResult :=
  CalledBack {| termination := Exited 0; overflow := true;
                stdout := kept; stderr := [] |}.

(** [exec] refuses the command. *)
Definition refusing : ExecResult :=
  Threw {| node_code := lit "ERR_INVALID_ARG_VALUE";
           node_message :=
             lit "The argument must be a string without null bytes." |}.

End Scripted.

(** * The vocabulary of the properties *)

Definition all_ws (s : jstring) : Prop := Forall (fun c => is_ws c = true) s.

(** [p] occurs in [s]. *)
Definition occurs (p s : jstring) : Prop := exists a b, s = a ++ p ++ b.

Definition escape_quotes (s : jstring) : jstring :=
  replace_g dquote [backslash; dquote] s.

(** The inverse reading: a backslash before a double quote is dropped. *)
Fixpoint unescape_quotes (s : jstring) : jstring :=
  match s with
  | a :: (b :: t) as rest =>
      if ((a =? backslash) && (b =? dquote))%N
      then dquote :: unescape_quotes t
      else a :: unescape_quotes rest
  | _ => s
  end.

(** A token is not empty and holds no space. *)
Definition token_ok (t : jstring) : bool :=
  truthy t && forallb (fun c => negb (c =? space)%N) t.

(** The members of a flag type all stand for well-formed tokens. *)
Class FlagTypeOk (F : Type) {FT : FlagType F} : Prop :=
  token_wf : forall f : F, token_ok (token f) = true.
Arguments FlagTypeOk F {FT}.

(** The flags of an invocation: joined by single spaces and followed by one
    space, or nothing when there is no flag. *)
Definition flags_before (fl : list jstring) : jstring :=
  match fl with
  | [] => []
  | _ :: _ => join (lit " ") fl ++ lit " "
  end.

(** The branch of an invocation: one space and the branch, or nothing when
    the branch is absent (the empty string). *)
Definition branch_after (branch : jstring) : jstring :=
  match branch with
  | [] => []
  | _ :: _ => lit " " ++ branch
  end.

(** The flags a third argument supplies: the array as it is, a flag as the
    array of that flag, nothing for an omitted argument or an empty
    string. *)
Definition supplied (flags : option jsvalue) : list jstring :=
  match flags with
  | Some (Arr fl) => fl
  | Some (Str []) => []
  | Some (Str f) => [f]
  | None => []
  end.

(** The tokens of every non-empty list of flags of type [F] are read back
    whole and in order by splitting their join at the spaces. *)
Definition joined_in_order (F : Type) {FT : FlagType F} : Prop :=
  forall (f : F) (fs : list F),
    split space (join (lit " ") (map token (f :: fs))) = map token (f :: fs).
Arguments joined_in_order F {FT}.

(** The marker of the line of the remote's symbolic HEAD, and the pattern
    taken out of that line. *)
Definition head_marker : jstring := lit "origin/HEAD".
Definition head_pattern : jstring := lit "origin/HEAD -> origin/".

Definition no_newline (line : jstring) : Prop := ~ In newline line.

(** The diagnostic of a failed invocation. *)
Definition diagnostic (cmd : jstring) (child : Subprocess) : jstring :=
  lit "Error executing command: " ++ cmd ++ [newline] ++ stderr child.

(** The outcome of a probe from the outcome of the command it wraps. *)
Definition collapse {W E A : Type} (r : Settled E A * W) : Settled E bool * W :=
  match r with
  | (Resolved _, w') => (Resolved true, w')
  | (Rejected _, w') => (Resolved false, w')
  end.

(** What a probe answers, read off what the call of [exec] did: [true]
    when it called back without an error. *)
Definition reported_success (r : ExecResult) : bool :=
  match r with
  | CalledBack child =>
      match exec_error child with
      | None => true
      | Some _ => false
      end
  | Threw _ => false
  end.

(** The outcome of a chaining method from the outcome of its command. *)
Definition returning {W E A : Type} (this : Git) (r : Settled E A * W)
  : Settled E Git * W :=
  match r with
  | (Resolved _, w') => (Resolved this, w')
  | (Rejected e, w') => (Rejected e, w')
  end.

Section Routing.

Variable World : Type.
Variable exec : jstring -> jstring -> World -> ExecResult * World.
Variable this : Git.

(** Every method of the facade is [runCommand] at the method's invocation:
    as it is, under [tryCommand], or followed by the return of the
    instance. *)
Definition routed_through_runCommand : Prop :=
  getUserName exec this = runCommand exec this (lit "git config user.name")
  /\ (forall name, setUserName exec this name
                   = runCommand exec this (setUserName_invocation name))
  /\ getUserEmail exec this
     = runCommand exec this (lit "git config user.email")
  /\ (forall email, setUserEmail exec this email
                    = runCommand exec this (setUserEmail_invocation email))
  /\ hasNoUnstagedChanges exec this
     = tryCommand (fun _ => runCommand exec this (lit "git diff --quiet"))
  /\ hasNoStagedChanges exec this
     = tryCommand
         (fun _ => runCommand exec this (lit "git diff --cached --quiet"))
  /\ isWorkingDirClean exec this
     = bind (hasNoUnstagedChanges exec this) (fun unstagedClean =>
       bind (hasNoStagedChanges exec this) (fun stagedClean =>
       ret (unstagedClean && stagedClean)))
  /\ hasUpstreamBranch exec this
     = tryCommand (fun _ =>
         runCommand exec this
           (lit "git rev-parse --abbrev-ref --symbolic-full-name @{u}"))
  /\ getCurrentBranchName exec this
     = runCommand exec this (lit "git rev-parse --abbrev-ref HEAD")
  /\ getDefaultBranchName exec this
     = bind (runCommand exec this (lit "git branch -r"))
            (fun branches => ret (defaultBranchOf branches))
  /\ (forall path, add exec this path
                   = runCommand exec this (add_invocation path))
  /\ (forall hashValue flag,
         reset exec this hashValue flag
         = runCommand exec this (reset_invocation hashValue flag))
  /\ (forall target flag,
         restore exec this target flag
         = runCommand exec this (restore_invocation target flag))
  /\ (forall message flags,
         commit exec this message flags
         = bind (runCommand exec this (commit_invocation message flags))
                (fun _ => ret this))
  /\ init exec this
     = bind (runCommand exec this (lit "git init")) (fun _ => ret this)
  /\ (forall url dir,
         clone exec this url dir
         = bind (runCommand exec this (clone_invocation url dir))
                (fun _ => ret this))
  /\ (forall remote branch flags,
         push exec this remote branch flags
         = bind (runCommand exec this
                   (push_invocation remote branch flags))
                (fun _ => ret this))
  /\ (forall value flags,
         tag exec this value flags
         = runCommand exec this (tag_invocation value flags))
  /\ (forall branchName flags,
         merge exec this branchName flags
         = runCommand exec this (merge_invocation branchName flags))
  /\ (forall target flags,
         checkout exec this target flags
         = bind (runCommand exec this (checkout_invocation target flags))
                (fun _ => ret this))
  /\ (forall name flags,
         branch exec this name flags
         = runCommand exec this (branch_invocation name flags)).

(** The same of the methods of the entry point. *)
Definition entry_point_routed_through_runCommand : Prop :=
  IndexTs.getUserName exec this
  = IndexTs.runCommand exec this (lit "git config user.name")
  /\ IndexTs.getUserEmail exec this
     = IndexTs.runCommand exec this (lit "git config user.email")
  /\ IndexTs.hasNoUnstagedChanges exec this
     = IndexTs.tryCommand
         (fun _ => IndexTs.runCommand exec this (lit "git diff --quiet"))
  /\ IndexTs.hasNoStagedChanges exec this
     = IndexTs.tryCommand
         (fun _ =>
            IndexTs.runCommand exec this (lit "git diff --cached --quiet"))
  /\ IndexTs.isWorkingDirClean exec this
     = bind (IndexTs.hasNoUnstagedChanges exec this) (fun unstagedClean =>
       bind (IndexTs.hasNoStagedChanges exec this) (fun stagedClean =>
       ret (unstagedClean && stagedClean)))
  /\ IndexTs.hasUpstreamBranch exec this
     = IndexTs.tryCommand (fun _ =>
         IndexTs.runCommand exec this
           (lit "git rev-parse --abbrev-ref --symbolic-full-name @{u}"))
  /\ IndexTs.getCurrentBranchName exec this
     = IndexTs.runCommand exec this (lit "git rev-parse --abbrev-ref HEAD")
  /\ IndexTs.getDefaultBranchName exec this
     = bind (IndexTs.runCommand exec this (lit "git branch -r"))
            (fun branches => ret (defaultBranchOf branches)).

End Routing.

(** ** Scripts and an instance for runs on concrete inputs *)

(** Two scripts: every invocation prints a branch name between blanks and
    exits with status zero; every invocation exits with status 128 and a
    line on its error channel. *)
Definition script_branch : Scripted.Script :=
  fun _ _ _ => Scripted.succeed (lit "  feature x " ++ [newline]).

Definition script_no_repository : Scripted.Script :=
  fun _ _ _ => Scripted.failing 128 (lit "fatal: not a git repository").

Definition repo : Git := {| cwd := lit "/repo" |}.

(** A child that exits with status zero after it printed more than the
    limit of [exec], and an [exec] that refuses a command that holds the
    code unit 0. *)
Definition script_overflow : Scripted.Script :=
  fun _ _ _ => Scripted.overflowing (lit "commit 1f3a9c").

Definition script_refuses_nul : Scripted.Script :=
  fun cmd _ _ =>
    if existsb (N.eqb 0) cmd then Scripted.refusing else Scripted.succeed [].

(** The unstaged probe succeeds and the staged probe fails. *)
Definition script_staged_changes : Scripted.Script :=
  fun cmd _ _ =>
    if startsWith (lit "git diff --cached") cmd
    then Scripted.failing 1 []
    else Scripted.succeed [].

(** A listing of two remotes, the symbolic HEAD of [origin] on its second
    line. *)
Definition script_listing : Scripted.Script :=
  fun _ _ _ =>
    Scripted.succeed
      (lit "  fork/main" ++ [newline]
         ++ lit "  origin/HEAD -> origin/develop" ++ [newline]
         ++ lit "  origin/develop" ++ [newline]).

(** ** Vocabulary of the further properties *)

(** [exec] with a log of its calls, the oldest first: each entry is the
    invocation and the directory [exec] was called with. *)
Definition logged {World : Type}
  (exec : jstring -> jstring -> World -> ExecResult * World)
  : jstring -> jstring -> World * list (jstring * jstring)
    -> ExecResult * (World * list (jstring * jstring)) :=
  fun cmd dir st =>
    let '(r, w') := exec cmd dir (fst st) in
    (r, (w', snd st ++ [(cmd, dir)])).

(** An outcome of a logged run from the outcome of the plain run and the
    entries the run adds to the log. *)
Definition with_log {World R : Type} (r : R * World)
  (log : list (jstring * jstring)) : R * (World * list (jstring * jstring)) :=
  (fst r, (snd r, log)).

(** The outcome of the entry point's method from the outcome of the current
    source's: where the rejection is an [Error] of the facade, it is the
    message of that [Error] instead. *)
Definition message_only {W A : Type} (r : Settled Reason A * W)
  : Settled Reason A * W :=
  match r with
  | (Rejected (OfError e), w') => (Rejected (OfString (message e)), w')
  | _ => r
  end.

(** The words of a target that stands bare in an invocation: none when the
    target is dropped (omitted or empty), its pieces between spaces
    otherwise. *)
Definition bare_words (target : option jstring) : list jstring :=
  match target with
  | Some (c :: t) => split space (c :: t)
  | _ => []
  end.

(** The words of the paths or targets that stand bare in an invocation: [.]
    for an omitted argument, the pieces between spaces of a single string,
    those of every element of a list in order, and one empty word for an
    empty list (the join of no path is the empty string). *)
Definition bare_paths (paths : option jsvalue) : list jstring :=
  match paths with
  | None => [lit "."]
  | Some (Str path) => split space path
  | Some (Arr []) => [[]]
  | Some (Arr (path :: rest)) => flat_map (split space) (path :: rest)
  end.

(** The logged promise settles as the plain one and adds exactly [entries]
    to the log, whatever the world and the log it starts from. *)
Definition logs {World E A : Type}
  (pl : Promise (World * list (jstring * jstring)) E A)
  (p : Promise World E A) (entries : list (jstring * jstring)) : Prop :=
  forall w log, pl (w, log) = with_log (p w) (log ++ entries).

(** * Properties *)

(** ** The examples of the source's documentation *)

Example reset_examples :
  reset_invocation (lit "abc1234") None = lit "git reset abc1234"
  /\ reset_invocation (lit "abc1234") (Some (token reset_hard))
     = lit "git reset --hard abc1234".
Proof. split; reflexivity. Qed.

Example restore_examples :
  restore_invocation (Some (Str (lit "README.md"))) None
  = lit "git restore README.md"
  /\ restore_invocation (Some (Str (lit "."))) (Some (lit "--staged"))
     = lit "git restore --staged ."
  /\ restore_invocation (Some (Arr [lit "src/"; lit "docs/"]))
       (Some (lit "--source=HEAD~1"))
     = lit "git restore --source=HEAD~1 src/ docs/"
  /\ restore_invocation None None = lit "git restore .".
Proof. repeat split. Qed.

Example commit_examples :
  commit_invocation (lit "feat: add login API") None
  = lit "git commit -m " ++ [dquote] ++ lit "feat: add login API" ++ [dquote]
  /\ commit_invocation (lit "fix: typo")
       (Some (flagList [commit_amend; commit_no_edit]))
     = lit "git commit -m " ++ [dquote] ++ lit "fix: typo" ++ [dquote]
         ++ lit " --amend --no-edit".
Proof. split; reflexivity. Qed.

Example clone_examples :
  clone_invocation (lit "https://github.com/user/repo.git")
    (Some (lit "my-folder"))
  = lit "git clone https://github.com/user/repo.git my-folder"
  /\ clone_invocation (lit "https://github.com/repo.git") None
     = lit "git clone https://github.com/repo.git ".
Proof. split; reflexivity. Qed.

Example push_examples :
  push_invocation None None None = lit "git push origin"
  /\ push_invocation (Some (Str (lit "origin"))) (Some (Str (lit "main")))
       (Some (oneFlag push_force))
     = lit "git push --force origin main"
  /\ push_invocation (Some (Str (lit "origin"))) (Some (Str (lit "dev")))
       (Some (flagList [push_tags; push_set_upstream]))
     = lit "git push --tags --set-upstream origin dev".
Proof. repeat split. Qed.

Example tag_examples :
  tag_invocation (lit "v1.0.0") None = lit "git tag v1.0.0"
  /\ tag_invocation (lit "v1.0.0") (Some (oneFlag tag_delete))
     = lit "git tag --delete v1.0.0"
  /\ tag_invocation (lit "v1.0.0") (Some (flagList [tag_annotate; tag_force]))
     = lit "git tag --annotate --force v1.0.0".
Proof. repeat split. Qed.

Example merge_examples :
  merge_invocation (lit "feature-branch") None = lit "git merge feature-branch"
  /\ merge_invocation (lit "hotfix")
       (Some (flagList [merge_squash; merge_no_commit]))
     = lit "git merge --squash --no-commit hotfix".
Proof. split; reflexivity. Qed.

Example checkout_examples :
  checkout_invocation (lit "main") None = lit "git checkout main"
  /\ checkout_invocation (lit "new-branch") (Some (oneFlag checkout_b))
     = lit "git checkout -b new-branch".
Proof. split; reflexivity. Qed.

Example branch_examples :
  branch_invocation None None = lit "git branch"
  /\ branch_invocation (Some (lit "feature-x")) None
     = lit "git branch feature-x"
  /\ branch_invocation (Some (lit "old-branch")) (Some (flagList [branch_d]))
     = lit "git branch -d old-branch"
  /\ branch_invocation None (Some (oneFlag branch_show_current))
     = lit "git branch --show-current".
Proof. repeat split. Qed.

Example defaultBranchOf_examples :
  defaultBranchOf (lit "origin/HEAD -> origin/master" ++ [newline]
                     ++ lit "  origin/master")
  = lit "master"
  /\ defaultBranchOf (lit "origin/dev" ++ [newline] ++ lit "  origin/main")
     = lit "main"
  /\ defaultBranchOf [] = lit "main".
Proof. repeat split. Qed.

Example trim_examples :
  trim (lit "  a  b " ++ [newline]) = lit "a  b"
  /\ trim ([9; 160; 8232; 65279] ++ lit "x" ++ [13; 10; 12288])%N = lit "x"
  /\ trim (lit "   ") = [].
Proof. repeat split. Qed.

(** ** Strings *)

Lemma startsWith_spec (p s : jstring) :
  startsWith p s = true <-> exists b, s = p ++ b.
Proof.
  revert s; induction p as [|a p IH]; intros s; simpl.
  - split; [intros _; now exists s | reflexivity].
  - destruct s as [|b s].
    + split; [discriminate | intros [t Ht]; discriminate].
    + rewrite andb_true_iff, N.eqb_eq, IH. split.
      * intros [-> [t ->]]. now exists t.
      * intros [t Ht]. injection Ht as -> ->.
        split; [reflexivity | now exists t].
Qed.

Lemma startsWith_app (p b : jstring) : startsWith p (p ++ b) = true.
Proof. apply startsWith_spec. now exists b. Qed.

Lemma includes_spec (p s : jstring) : includes p s = true <-> occurs p s.
Proof.
  unfold occurs. induction s as [|c s IH].
  - simpl. rewrite orb_false_r, startsWith_spec. split.
    + intros [b Hb]. now exists [], b.
    + intros [a [b Hab]]. destruct a; [now exists b | discriminate].
  - simpl. rewrite orb_true_iff, startsWith_spec, IH. split.
    + intros [[b Hb] | [a [b Hab]]].
      * now exists [], b.
      * exists (c :: a), b. now rewrite Hab.
    + intros [a [b Hab]]. destruct a as [|x a].
      * left. now exists b.
      * right. injection Hab as -> ->. now exists a, b.
Qed.

Lemma includes_false (p s : jstring) :
  includes p s = false <-> ~ occurs p s.
Proof.
  rewrite <- includes_spec. destruct (includes p s); split; intro H;
    try reflexivity; try discriminate; try (intro; discriminate).
  now elim H.
Qed.

Lemma trimStart_decompose (s : jstring) :
  exists l, s = l ++ trimStart s /\ all_ws l.
Proof.
  induction s as [|c s [l [Hl Hws]]]; simpl.
  - exists []. split; [reflexivity | constructor].
  - destruct (is_ws c) eqn:Hc.
    + exists (c :: l). split; [now rewrite Hl at 1 | now constructor].
    + exists []. split; [reflexivity | constructor].
Qed.

Lemma trimStart_head (s : jstring) (c : char) (t : jstring) :
  trimStart s = c :: t -> is_ws c = false.
Proof.
  induction s as [|x s IH]; simpl; [discriminate|].
  destruct (is_ws x) eqn:Hx; [exact IH|].
  intros H. injection H as <- _. exact Hx.
Qed.

Lemma trimStart_ws_app (l s : jstring) :
  all_ws l -> trimStart (l ++ s) = trimStart s.
Proof.
  induction 1 as [|c l Hc _ IH]; simpl; [reflexivity|].
  now rewrite Hc.
Qed.

Lemma trimStart_all_ws (r : jstring) : all_ws r -> trimStart r = [].
Proof.
  induction 1 as [|c r Hc _ IH]; simpl; [reflexivity|]. now rewrite Hc.
Qed.

Lemma trimStart_fixed (c : char) (t : jstring) :
  is_ws c = false -> trimStart (c :: t) = c :: t.
Proof. intros H. simpl. now rewrite H. Qed.

Lemma trimEnd_decompose (s : jstring) :
  exists r, s = trimEnd s ++ r /\ all_ws r.
Proof.
  unfold trimEnd. destruct (trimStart_decompose (rev s)) as [l [Hl Hws]].
  exists (rev l). split.
  - rewrite <- rev_app_distr, <- Hl. now rewrite rev_involutive.
  - apply Forall_rev. exact Hws.
Qed.

Lemma trimEnd_last (s t : jstring) (c : char) :
  trimEnd s = t ++ [c] -> is_ws c = false.
Proof.
  unfold trimEnd. intros H.
  apply (f_equal (@rev char)) in H.
  rewrite rev_involutive, rev_app_distr in H. simpl in H.
  now apply trimStart_head in H.
Qed.

Lemma trimEnd_app_ws (s r : jstring) :
  all_ws r -> trimEnd (s ++ r) = trimEnd s.
Proof.
  intros H. unfold trimEnd. rewrite rev_app_distr.
  rewrite trimStart_ws_app; [reflexivity | now apply Forall_rev].
Qed.

(** [trim] removes a whitespace prefix and a whitespace suffix, leaves what
    is between them as it is, and what it returns neither begins nor ends
    with whitespace. *)
Lemma trim_spec (s : jstring) :
  exists l r,
    s = l ++ trim s ++ r /\ all_ws l /\ all_ws r
    /\ (forall c t, trim s = c :: t -> is_ws c = false)
    /\ (forall t c, trim s = t ++ [c] -> is_ws c = false).
Proof.
  unfold trim.
  destruct (trimStart_decompose s) as [l [Hl Hwl]].
  destruct (trimEnd_decompose (trimStart s)) as [r [Hr Hwr]].
  exists l, r. repeat split; try assumption.
  - now rewrite <- Hr.
  - intros c t Hct. rewrite Hct in Hr. simpl in Hr.
    now apply trimStart_head in Hr.
  - intros t c. apply trimEnd_last.
Qed.

(** A string that neither begins nor ends with whitespace is what [trim]
    returns for it with any whitespace around it: interior whitespace
    stays. *)
Lemma trim_surrounded (l m r : jstring) :
  all_ws l -> all_ws r ->
  (forall c t, m = c :: t -> is_ws c = false) ->
  (forall t c, m = t ++ [c] -> is_ws c = false) ->
  trim (l ++ m ++ r) = m.
Proof.
  intros Hl Hr Hfirst Hlast. unfold trim.
  rewrite trimStart_ws_app by assumption.
  destruct m as [|c t].
  - simpl. rewrite (trimStart_all_ws Hr). reflexivity.
  - rewrite <- app_comm_cons, trimStart_fixed by (eapply Hfirst; reflexivity).
    rewrite app_comm_cons, trimEnd_app_ws by assumption.
    unfold trimEnd.
    destruct (exists_last (l:=c :: t)) as [t' [c' Ht']]; [discriminate|].
    rewrite Ht', rev_app_distr. simpl.
    rewrite (Hlast _ _ Ht'). simpl. now rewrite rev_involutive.
Qed.

Lemma replace_absent (p r s : jstring) :
  includes p s = false -> replace p r s = s.
Proof.
  induction s as [|c s IH]; simpl; intros H;
    apply orb_false_iff in H; destruct H as [Hp Hs]; rewrite Hp.
  - reflexivity.
  - now rewrite IH.
Qed.

Lemma skipn_length_app (p b : jstring) : skipn (List.length p) (p ++ b) = b.
Proof. induction p; simpl; auto. Qed.

(** [replace] rewrites the leftmost occurrence of the pattern. *)
Lemma replace_first (p r a b : jstring) :
  (forall a1 a2, a = a1 ++ a2 -> a2 <> [] ->
                 startsWith p (a2 ++ p ++ b) = false) ->
  replace p r (a ++ p ++ b) = a ++ r ++ b.
Proof.
  induction a as [|c a IH]; intros Hfirst.
  - simpl app. destruct (p ++ b) eqn:E; simpl;
      rewrite <- E, startsWith_app, skipn_length_app; reflexivity.
  - simpl app. simpl replace.
    rewrite (app_comm_cons a (p ++ b) c).
    rewrite (Hfirst [] (c :: a) eq_refl) by discriminate.
    rewrite IH; [reflexivity|].
    intros a1 a2 -> Hne. apply (Hfirst (c :: a1) a2); [reflexivity | exact Hne].
Qed.

Lemma replace_after_indent (c0 : char) (p' r ind b : jstring) :
  all_ws ind -> is_ws c0 = false ->
  replace (c0 :: p') r (ind ++ (c0 :: p') ++ b) = ind ++ r ++ b.
Proof.
  intros Hind Hc0. apply replace_first.
  intros a1 a2 -> Hne. destruct a2 as [|x a2]; [now elim Hne|].
  apply Forall_app in Hind. destruct Hind as [_ Hx].
  inversion Hx as [|? ? Hwx _]; subst.
  simpl. destruct (N.eqb_spec c0 x) as [->|]; [congruence | reflexivity].
Qed.

Lemma split_nonempty (sep : char) (s : jstring) : split sep s <> [].
Proof.
  destruct s as [|c s]; simpl; [discriminate|].
  destruct (c =? sep)%N; [discriminate|].
  destruct (split sep s); discriminate.
Qed.

Lemma join_cons (sep x y : jstring) (rest : list jstring) :
  join sep (x :: y :: rest) = x ++ sep ++ join sep (y :: rest).
Proof. reflexivity. Qed.

(** The pieces of a split, joined by the separator, are the string. *)
Lemma join_split (sep : char) (s : jstring) : join [sep] (split sep s) = s.
Proof.
  induction s as [|c s IH]; [reflexivity|]. simpl split.
  destruct (N.eqb_spec c sep) as [->|Hne].
  - destruct (split sep s) as [|y rest] eqn:E; [now apply split_nonempty in E|].
    rewrite join_cons, IH. reflexivity.
  - destruct (split sep s) as [|y rest] eqn:E; [now apply split_nonempty in E|].
    destruct rest as [|z rest].
    + simpl in *. now rewrite IH.
    + rewrite join_cons. rewrite join_cons in IH.
      rewrite <- IH. reflexivity.
Qed.

Lemma split_no_sep (sep : char) (s : jstring) :
  Forall (fun piece => ~ In sep piece) (split sep s).
Proof.
  induction s as [|c s IH]; simpl.
  - constructor; [intros [] | constructor].
  - destruct (N.eqb_spec c sep) as [->|Hne].
    + constructor; [intros [] | exact IH].
    + destruct (split sep s) as [|y rest]; [constructor; [|constructor]|].
      * intros [H|[]]. congruence.
      * inversion IH; subst. constructor; [|assumption].
        intros [H|H]; [congruence | contradiction].
Qed.

Lemma split_piece (sep : char) (x : jstring) :
  ~ In sep x -> split sep x = [x].
Proof.
  induction x as [|c x IH]; intros H; [reflexivity|]. simpl.
  destruct (N.eqb_spec c sep) as [->|Hne]; [elim H; now left|].
  rewrite IH; [reflexivity | intros Hin; apply H; now right].
Qed.

Lemma split_piece_sep (sep : char) (x t : jstring) :
  ~ In sep x -> split sep (x ++ sep :: t) = x :: split sep t.
Proof.
  induction x as [|c x IH]; intros H; simpl.
  - now rewrite N.eqb_refl.
  - destruct (N.eqb_spec c sep) as [->|Hne]; [elim H; now left|].
    rewrite IH; [reflexivity | intros Hin; apply H; now right].
Qed.

(** Splitting a join gives the joined strings back, in their order, when
    none of them holds the separator. *)
Lemma split_join (sep : char) (x : jstring) (rest : list jstring) :
  Forall (fun piece => ~ In sep piece) (x :: rest) ->
  split sep (join [sep] (x :: rest)) = x :: rest.
Proof.
  revert x; induction rest as [|y rest IH]; intros x H;
    inversion H as [|? ? Hx Hrest]; subst.
  - simpl. now apply split_piece.
  - rewrite join_cons.
    change ([sep] ++ join [sep] (y :: rest))
      with (sep :: join [sep] (y :: rest)).
    rewrite split_piece_sep by assumption. now rewrite IH.
Qed.

(** Where an element of the array lands in the join: whole, after the
    elements before it and before the elements after it. *)
Lemma join_middle (sep : jstring) (l1 : list jstring) (x : jstring)
  (l2 : list jstring) :
  join sep (l1 ++ x :: l2) =
    join sep l1 ++ (match l1 with [] => [] | _ :: _ => sep end)
      ++ x ++ (match l2 with [] => [] | _ :: _ => sep end) ++ join sep l2.
Proof.
  induction l1 as [|a [|b l1] IH].
  - destruct l2 as [|y l2]; [simpl; now rewrite app_nil_r | reflexivity].
  - change ([a] ++ x :: l2) with (a :: x :: l2).
    rewrite join_cons. change ([] ++ x :: l2) with (x :: l2) in IH.
    rewrite IH. reflexivity.
  - change ((a :: b :: l1) ++ x :: l2) with (a :: b :: (l1 ++ x :: l2)).
    rewrite !join_cons.
    change (b :: l1 ++ x :: l2) with ((b :: l1) ++ x :: l2).
    rewrite IH. now rewrite <- !app_assoc.
Qed.

Lemma join_singleton (sep x : jstring) : join sep [x] = x.
Proof. reflexivity. Qed.

(** ** Escaping of double quotes *)

Lemma escape_quotes_cons (c : char) (s : jstring) :
  escape_quotes (c :: s) =
    (if (c =? dquote)%N then [backslash; dquote] else [c]) ++ escape_quotes s.
Proof. reflexivity. Qed.

Lemma escape_quotes_app (a b : jstring) :
  escape_quotes (a ++ b) = escape_quotes a ++ escape_quotes b.
Proof. apply flat_map_app. Qed.

Lemma escape_quotes_head (s t : jstring) : escape_quotes s <> dquote :: t.
Proof.
  destruct s as [|c s]; [discriminate|]. rewrite escape_quotes_cons.
  destruct (N.eqb_spec c dquote) as [->|Hne]; simpl; [discriminate|].
  intros H. injection H as H _. contradiction.
Qed.

(** In the escaped text every double quote stands right after a
    backslash. *)
Lemma escape_quotes_preceded (s a b : jstring) :
  escape_quotes s = a ++ dquote :: b -> exists a', a = a' ++ [backslash].
Proof.
  revert a; induction s as [|c s IH]; intros a H.
  - destruct a; discriminate.
  - rewrite escape_quotes_cons in H.
    destruct (N.eqb_spec c dquote) as [->|Hne]; simpl in H.
    + destruct a as [|x [|y a]]; simpl in H.
      * discriminate.
      * injection H as <- _. now exists [].
      * injection H as <- <- H. destruct (IH _ H) as [a' ->].
        now exists (backslash :: dquote :: a').
    + destruct a as [|x a]; simpl in H.
      * injection H as H _. congruence.
      * injection H as <- H. destruct (IH _ H) as [a' ->].
        now exists (c :: a').
Qed.

Lemma unescape_quotes_cons2 (a b : char) (t : jstring) :
  unescape_quotes (a :: b :: t) =
    if ((a =? backslash) && (b =? dquote))%N
    then dquote :: unescape_quotes t
    else a :: unescape_quotes (b :: t).
Proof. reflexivity. Qed.

Lemma unescape_escape_quotes (s : jstring) :
  unescape_quotes (escape_quotes s) = s.
Proof.
  induction s as [|c s IH]; [reflexivity|]. rewrite escape_quotes_cons.
  destruct (N.eqb_spec c dquote) as [->|Hne].
  - simpl. now rewrite IH.
  - simpl app. destruct (escape_quotes s) as [|b t] eqn:E.
    + simpl. simpl in IH. now rewrite <- IH.
    + rewrite unescape_quotes_cons2.
      destruct (N.eqb_spec b dquote) as [->|Hb];
        [now apply escape_quotes_head in E|].
      rewrite andb_false_r. now rewrite IH.
Qed.

Lemma escape_quotes_length (a b : jstring) :
  List.length (escape_quotes (a ++ dquote :: b))
    > List.length (a ++ dquote :: b).
Proof.
  assert (Hle : forall s, List.length s <= List.length (escape_quotes s)).
  { induction s as [|c s IH]; [simpl; lia|]. rewrite escape_quotes_cons.
    rewrite length_app. destruct (c =? dquote)%N; simpl; lia. }
  rewrite escape_quotes_app, !length_app, escape_quotes_cons.
  rewrite N.eqb_refl, length_app. simpl.
  pose proof (Hle a). pose proof (Hle b). lia.
Qed.

(** ** Flag tokens *)

Lemma token_ok_truthy (t : jstring) : token_ok t = true -> truthy t = true.
Proof. unfold token_ok. now intros [H _]%andb_true_iff. Qed.

Lemma token_ok_no_space (t : jstring) : token_ok t = true -> ~ In space t.
Proof.
  unfold token_ok. intros [_ H]%andb_true_iff Hin.
  rewrite forallb_forall in H. specialize (H _ Hin).
  now rewrite N.eqb_refl in H.
Qed.

#[global] Instance ResetFlag_ok : FlagTypeOk ResetFlag.
Proof. intros []; reflexivity. Qed.
#[global] Instance CommitFlag_ok : FlagTypeOk CommitFlag.
Proof. intros []; reflexivity. Qed.
#[global] Instance PushFlag_ok : FlagTypeOk PushFlag.
Proof. intros []; reflexivity. Qed.
#[global] Instance TagFlag_ok : FlagTypeOk TagFlag.
Proof. intros []; reflexivity. Qed.
#[global] Instance MergeFlag_ok : FlagTypeOk MergeFlag.
Proof. intros []; reflexivity. Qed.
#[global] Instance CheckoutFlag_ok : FlagTypeOk CheckoutFlag.
Proof. intros []; reflexivity. Qed.
#[global] Instance BranchFlag_ok : FlagTypeOk BranchFlag.
Proof. intros []; reflexivity. Qed.

Section Tokens.

Context {F : Type} {FT : FlagType F} {FOk : FlagTypeOk F}.

Lemma token_truthy (f : F) : truthy (token f) = true.
Proof. apply token_ok_truthy, token_wf. Qed.

Lemma tokens_no_space (fs : list F) :
  Forall (fun piece => ~ In space piece) (map token fs).
Proof.
  induction fs as [|f fs IH]; simpl; constructor; [|exact IH].
  apply token_ok_no_space, token_wf.
Qed.

Lemma filterBoolean_tokens (fs : list F) :
  filterBoolean (map defined (map token fs)) = map token fs.
Proof.
  induction fs as [|f fs IH]; [reflexivity|].
  change (filterBoolean (map defined (map token (f :: fs))))
    with ((if truthy (token f) then [token f] else [])
            ++ filterBoolean (map defined (map token fs))).
  now rewrite token_truthy, IH.
Qed.

(** The tokens of a flag list can be read back from their join: they are
    in the caller's order, one space between neighbours. *)
Lemma split_join_tokens (f : F) (fs : list F) :
  split space (join (lit " ") (map token (f :: fs))) = map token (f :: fs).
Proof. apply split_join, (tokens_no_space (f :: fs)). Qed.

End Tokens.

Lemma filterBoolean_app (a b : list (option jstring)) :
  filterBoolean (a ++ b) = filterBoolean a ++ filterBoolean b.
Proof. apply flat_map_app. Qed.

(** ** Single flag against one-element list, at run time

    A non-empty string as the flag argument gives the invocation the
    one-element array of that string gives. *)

Section SingleFlag.

Variable f : jstring.
Hypothesis f_truthy : truthy f = true.

Lemma flagStr_single : flagStr (Some (Str f)) = flagStr (Some (Arr [f])).
Proof. simpl. now rewrite f_truthy. Qed.

Lemma commit_single (message : jstring) :
  commit_invocation message (Some (Str f))
  = commit_invocation message (Some (Arr [f])).
Proof. unfold commit_invocation. simpl. now rewrite f_truthy. Qed.

Lemma tag_single (value : jstring) :
  tag_invocation value (Some (Str f)) = tag_invocation value (Some (Arr [f])).
Proof. unfold tag_invocation. now rewrite flagStr_single. Qed.

Lemma merge_single (branchName : jstring) :
  merge_invocation branchName (Some (Str f))
  = merge_invocation branchName (Some (Arr [f])).
Proof. unfold merge_invocation. now rewrite flagStr_single. Qed.

Lemma checkout_single (target : jstring) :
  checkout_invocation target (Some (Str f))
  = checkout_invocation target (Some (Arr [f])).
Proof. unfold checkout_invocation. now rewrite flagStr_single. Qed.

Lemma branch_single (name : option jstring) :
  branch_invocation name (Some (Str f))
  = branch_invocation name (Some (Arr [f])).
Proof.
  cbv beta iota zeta delta [branch_invocation param].
  now rewrite f_truthy.
Qed.

Lemma push_single (remote branch : option jsvalue) :
  push_invocation remote branch (Some (Str f))
  = push_invocation remote branch (Some (Arr [f])).
Proof.
  unfold push_invocation.
  destruct (param remote _) as [r|a]; [|reflexivity].
  destruct (param branch _) as [b|a]; [|reflexivity].
  cbv beta iota zeta delta [param filterBoolean flat_map defined app].
  now rewrite f_truthy.
Qed.

End SingleFlag.

(** ** [push]: resolution of the overloaded arguments *)

Lemma supplied_third (flags : option jsvalue) :
  match param flags (Arr []) with
  | Arr fl => fl
  | Str f => filterBoolean [defined f]
  end = supplied flags.
Proof. destruct flags as [[[|c f]|fl]|]; reflexivity. Qed.

Lemma push_flag_list_first (fl : list jstring) (branch flags : option jsvalue) :
  push_invocation (Some (Arr fl)) branch flags
  = lit "git push " ++ flags_before fl ++ lit "origin".
Proof.
  unfold push_invocation. cbv beta iota zeta delta [param]. now destruct fl.
Qed.

Lemma push_flag_list_second (remote : jstring) (fl : list jstring)
  (flags : option jsvalue) :
  push_invocation (Some (Str remote)) (Some (Arr fl)) flags
  = lit "git push " ++ flags_before fl ++ remote.
Proof.
  unfold push_invocation. cbv beta iota zeta delta [param]. now destruct fl.
Qed.

Lemma push_remote_branch (remote branch : jstring) (flags : option jsvalue) :
  push_invocation (Some (Str remote)) (Some (Str branch)) flags
  = lit "git push " ++ flags_before (supplied flags) ++ remote
      ++ branch_after branch.
Proof.
  unfold push_invocation.
  change (param (Some (Str remote)) (Str (lit "origin"))) with (Str remote).
  change (param (Some (Str branch)) (Str [])) with (Str branch).
  cbv beta iota zeta. rewrite supplied_third.
  destruct (supplied flags), branch; cbn [truthy flags_before branch_after];
    now rewrite ?app_nil_r, <- ?app_assoc.
Qed.

Lemma push_remote_only (remote : jstring) (flags : option jsvalue) :
  push_invocation (Some (Str remote)) None flags
  = lit "git push " ++ flags_before (supplied flags) ++ remote.
Proof.
  unfold push_invocation.
  change (param (Some (Str remote)) (Str (lit "origin"))) with (Str remote).
  change (param None (Str [])) with (@Str []).
  cbv beta iota zeta. rewrite supplied_third.
  destruct (supplied flags); cbn [truthy flags_before]; reflexivity.
Qed.

(** C1. [push] sends to the executor the invocation resolved from its
    arguments. A flag list in first place is the whole flag set, with
    remote [origin] and no branch, whatever follows it. Otherwise the first
    argument is the remote (an omitted one is [origin]); a flag list in
    second place is the flag set, with no branch; otherwise the second
    argument is the branch (absent when omitted) and the third supplies the
    flags. The invocation is [git push], the flags joined by spaces with a
    space after them when there are any, the remote, and the branch after
    one space when there is one. So [push()] is [git push origin],
    [push(["--force"])] is [git push --force origin] and
    [push("origin", "dev", ["--tags"])] is [git push --tags origin dev]. *)
Theorem push_argument_resolution :
  (forall World exec this remote branch flags,
      @push World exec this remote branch flags
      = bind (runCommand exec this (push_invocation remote branch flags))
             (fun _ => ret this))
  /\ (forall fl branch flags,
         push_invocation (Some (Arr fl)) branch flags
         = lit "git push " ++ flags_before fl ++ lit "origin")
  /\ (forall remote fl flags,
         push_invocation (Some (Str remote)) (Some (Arr fl)) flags
         = lit "git push " ++ flags_before fl ++ remote)
  /\ (forall remote branch flags,
         push_invocation (Some (Str remote)) (Some (Str branch)) flags
         = lit "git push " ++ flags_before (supplied flags) ++ remote
             ++ branch_after branch)
  /\ (forall branch flags,
         push_invocation None branch flags
         = push_invocation (Some (Str (lit "origin"))) branch flags)
  /\ (forall remote flags,
         push_invocation (Some (Str remote)) None flags
         = lit "git push " ++ flags_before (supplied flags) ++ remote)
  /\ push_invocation None None None = lit "git push origin"
  /\ push_invocation (Some (flagList [push_force])) None None
     = lit "git push --force origin"
  /\ push_invocation (Some (Str (lit "origin"))) (Some (Str (lit "dev")))
       (Some (flagList [push_tags]))
     = lit "git push --tags origin dev".
Proof.
  split; [reflexivity|].
  split; [exact push_flag_list_first|].
  split; [exact push_flag_list_second|].
  split; [exact push_remote_branch|].
  split; [reflexivity|].
  split; [exact push_remote_only|].
  repeat split.
Qed.

(** ** [commit]: quoting of the message *)

(** C3. The invocation [commit] builds is [git commit -m], the message
    between two double quotes, and the flags. Between the outer quotes
    stands the message with each of its double quotes rendered as a
    backslash and the double quote, every other code unit as itself: each
    double quote there stands right after a backslash, a message cut at one
    of its double quotes is rendered as the rendering of the part before, a
    backslash, the double quote, and the rendering of the part after, and
    dropping the backslash before each double quote gives the message
    back. *)
Theorem commit_message_quoting (message : jstring) (flags : option jsvalue) :
  exists body flagsPart,
    commit_invocation message flags
    = lit "git commit -m " ++ [dquote] ++ body ++ [dquote] ++ flagsPart
    /\ body = List.concat (map (fun c => if (c =? dquote)%N
                                    then [backslash; dquote] else [c])
                          message)
    /\ (forall a b, message = a ++ dquote :: b ->
                    body = escape_quotes a ++ [backslash; dquote]
                             ++ escape_quotes b)
    /\ (forall a b, body = a ++ dquote :: b ->
                    exists a', a = a' ++ [backslash])
    /\ unescape_quotes body = message.
Proof.
  exists (escape_quotes message).
  eexists. split; [reflexivity|]. split; [apply flat_map_concat_map|].
  split; [|split].
  - intros a b ->. rewrite escape_quotes_app, escape_quotes_cons.
    now rewrite N.eqb_refl.
  - intros a b. apply escape_quotes_preceded.
  - apply unescape_escape_quotes.
Qed.

(** The theorem at the message [say "hi"] with the flag [--amend]. *)
Lemma commit_message_quoting_witness :
  exists body flagsPart,
    commit_invocation (lit "say " ++ [dquote] ++ lit "hi" ++ [dquote])
                      (Some (oneFlag commit_amend))
    = lit "git commit -m " ++ [dquote] ++ body ++ [dquote] ++ flagsPart
    /\ body = lit "say " ++ [backslash; dquote] ++ lit "hi"
                ++ [backslash; dquote]
    /\ flagsPart = lit " --amend".
Proof.
  destruct (commit_message_quoting
              (lit "say " ++ [dquote] ++ lit "hi" ++ [dquote])
              (Some (oneFlag commit_amend)))
    as [body [flagsPart [Hinv [Hbody _]]]].
  exists body, flagsPart. split; [exact Hinv|].
  split; [rewrite Hbody; reflexivity|].
  rewrite Hbody in Hinv. vm_compute in Hinv.
  injection Hinv as <-. reflexivity.
Defined.

(** ** Flags: one flag, a list of flags *)

(** C6. In [commit], [tag], [merge], [checkout], [branch] and the flags
    parameter of [push], a list of flags enters the invocation joined by
    single spaces in the caller's order, and one flag gives the invocation
    the list of that one flag gives. *)
Theorem flag_list_joining :
  (* one flag against the list of it *)
  (forall message (f : CommitFlag),
      commit_invocation message (Some (oneFlag f))
      = commit_invocation message (Some (flagList [f])))
  /\ (forall value (f : TagFlag),
         tag_invocation value (Some (oneFlag f))
         = tag_invocation value (Some (flagList [f])))
  /\ (forall branchName (f : MergeFlag),
         merge_invocation branchName (Some (oneFlag f))
         = merge_invocation branchName (Some (flagList [f])))
  /\ (forall target (f : CheckoutFlag),
         checkout_invocation target (Some (oneFlag f))
         = checkout_invocation target (Some (flagList [f])))
  /\ (forall name (f : BranchFlag),
         branch_invocation name (Some (oneFlag f))
         = branch_invocation name (Some (flagList [f])))
  /\ (forall remote branch (f : PushFlag),
         push_invocation remote branch (Some (oneFlag f))
         = push_invocation remote branch (Some (flagList [f])))
  (* where the joined list stands *)
  /\ (forall message (fs : list CommitFlag),
         commit_invocation message (Some (flagList fs))
         = lit "git commit -m " ++ [dquote] ++ escape_quotes message
             ++ [dquote] ++ lit " " ++ join (lit " ") (map token fs))
  /\ (forall value (fs : list TagFlag),
         tag_invocation value (Some (flagList fs))
         = lit "git tag " ++ join (lit " ") (map token fs) ++ lit " "
             ++ value)
  /\ (forall branchName (fs : list MergeFlag),
         merge_invocation branchName (Some (flagList fs))
         = lit "git merge " ++ join (lit " ") (map token fs) ++ lit " "
             ++ branchName)
  /\ (forall target (fs : list CheckoutFlag),
         checkout_invocation target (Some (flagList fs))
         = lit "git checkout " ++ join (lit " ") (map token fs) ++ lit " "
             ++ target)
  /\ (forall name (fs : list BranchFlag),
         branch_invocation name (Some (flagList fs))
         = join (lit " ")
             (lit "git branch" :: map token fs ++ filterBoolean [name]))
  /\ (forall remote branch (f : PushFlag) (fs : list PushFlag),
         push_invocation (Some (Str remote)) (Some (Str branch))
           (Some (flagList (f :: fs)))
         = lit "git push " ++ join (lit " ") (map token (f :: fs)) ++ lit " "
             ++ remote ++ branch_after branch)
  (* the join keeps the tokens whole and in order *)
  /\ joined_in_order CommitFlag /\ joined_in_order TagFlag
  /\ joined_in_order MergeFlag /\ joined_in_order CheckoutFlag
  /\ joined_in_order BranchFlag /\ joined_in_order PushFlag.
Proof.
  split; [intros; apply commit_single, token_truthy|].
  split; [intros; apply tag_single, token_truthy|].
  split; [intros; apply merge_single, token_truthy|].
  split; [intros; apply checkout_single, token_truthy|].
  split; [intros; apply branch_single, token_truthy|].
  split; [intros; apply push_single, token_truthy|].
  split; [reflexivity|].
  split; [intros; unfold tag_invocation, flagStr, flagList;
          now rewrite <- app_assoc|].
  split; [intros; unfold merge_invocation, flagStr, flagList;
          now rewrite <- app_assoc|].
  split; [intros; unfold checkout_invocation, flagStr, flagList;
          now rewrite <- app_assoc|].
  split.
  { intros name fs. unfold branch_invocation, flagList.
    cbv beta iota zeta delta [param].
    rewrite !filterBoolean_app, filterBoolean_tokens. reflexivity. }
  split.
  { intros remote branch f fs.
    rewrite push_remote_branch. unfold flagList, supplied, flags_before.
    change (map token (f :: fs)) with (token f :: map token fs).
    cbv iota. now rewrite <- app_assoc. }
  repeat split; intros f fs; apply split_join_tokens.
Qed.

(** ** [add]: the paths *)

(** C7. [add()] builds the invocation of [add(".")]. A list of paths is
    joined by single spaces in the given order between [git add] and one
    closing space: each path stands whole between the join of the paths
    before it and the join of the paths after it, and paths that hold no
    space are read back, in order, by splitting the join at the spaces. So
    [add(["a", "b"])] builds [git add a b] and the closing space. The
    invocation is what [add] hands to the executor. *)
Theorem add_default_and_paths :
  add_invocation None = add_invocation (Some (Str (lit ".")))
  /\ (forall paths,
         add_invocation (Some (Arr paths))
         = lit "git add " ++ join (lit " ") paths ++ lit " ")
  /\ (forall before path after,
         join (lit " ") (before ++ path :: after)
         = join (lit " ") before
             ++ (match before with [] => [] | _ :: _ => lit " " end)
             ++ path
             ++ (match after with [] => [] | _ :: _ => lit " " end)
             ++ join (lit " ") after)
  /\ (forall path paths,
         Forall (fun p => ~ In space p) (path :: paths) ->
         split space (join (lit " ") (path :: paths)) = path :: paths)
  /\ add_invocation (Some (Arr [lit "a"; lit "b"])) = lit "git add a b "
  /\ (forall World exec this path,
         @add World exec this path
         = runCommand exec this (add_invocation path)).
Proof.
  split; [reflexivity|].
  split; [reflexivity|].
  split; [intros; apply join_middle|].
  split; [intros path paths; apply split_join|].
  split; reflexivity.
Qed.

(** The theorem at [add(["src/", "docs/"])]. *)
Lemma add_default_and_paths_witness :
  add_invocation (Some (Arr [lit "src/"; lit "docs/"]))
  = lit "git add src/ docs/ "
  /\ split space (join (lit " ") [lit "src/"; lit "docs/"])
     = [lit "src/"; lit "docs/"].
Proof.
  destruct add_default_and_paths as (_ & Hjoin & _ & Hsplit & _).
  split.
  - rewrite Hjoin. reflexivity.
  - apply Hsplit. repeat constructor; vm_compute; intuition discriminate.
Defined.

(** ** [setUserName] and [setUserEmail]: the value between the quotes *)

(** C10. [setUserName] builds [git config --global user.name], the name
    between two double quotes, and a closing space; [setUserEmail] builds
    [git config --global user.email] and the address between two double
    quotes, with nothing after. The value stands between the quotes as it
    was given: a double quote in it is still a bare double quote there,
    where the escaping [commit] applies to its message would have changed
    the value. *)
Theorem config_value_verbatim :
  (forall name,
      setUserName_invocation name
      = lit "git config --global user.name " ++ [dquote] ++ name
          ++ [dquote] ++ lit " ")
  /\ (forall email,
         setUserEmail_invocation email
         = lit "git config --global user.email " ++ [dquote] ++ email
             ++ [dquote])
  /\ (forall a b,
         setUserName_invocation (a ++ dquote :: b)
         = lit "git config --global user.name " ++ [dquote] ++ a
             ++ [dquote] ++ b ++ [dquote] ++ lit " ")
  /\ (forall a b,
         setUserEmail_invocation (a ++ dquote :: b)
         = lit "git config --global user.email " ++ [dquote] ++ a
             ++ [dquote] ++ b ++ [dquote])
  /\ (forall a b,
         escape_quotes (a ++ dquote :: b) <> a ++ dquote :: b)
  /\ (forall World exec this name,
         @setUserName World exec this name
         = runCommand exec this (setUserName_invocation name))
  /\ (forall World exec this email,
         @setUserEmail World exec this email
         = runCommand exec this (setUserEmail_invocation email)).
Proof.
  split; [reflexivity|].
  split; [reflexivity|].
  split.
  { intros a b. unfold setUserName_invocation.
    now rewrite <- (app_assoc a (dquote :: b)). }
  split.
  { intros a b. unfold setUserEmail_invocation.
    now rewrite <- (app_assoc a (dquote :: b)). }
  split.
  { intros a b Heq. pose proof (escape_quotes_length a b) as Hlen.
    rewrite Heq in Hlen. lia. }
  split; reflexivity.
Qed.

(** ** Reading the default branch off a listing *)

Lemma find_first {A : Type} (f : A -> bool) (before : list A) (x : A)
  (after : list A) :
  Forall (fun y => f y = false) before -> f x = true ->
  find f (before ++ x :: after) = Some x.
Proof.
  induction 1 as [|y before Hy _ IH]; intros Hx; simpl.
  - now rewrite Hx.
  - rewrite Hy. now apply IH.
Qed.

Lemma find_absent {A : Type} (f : A -> bool) (l : list A) :
  Forall (fun y => f y = false) l -> find f l = None.
Proof. induction 1 as [|y l Hy _ IH]; simpl; [|rewrite Hy]; auto. Qed.

Lemma not_occurs_includes (p : jstring) (l : list jstring) :
  Forall (fun line => ~ occurs p line) l ->
  Forall (fun line => includes p line = false) l.
Proof. apply Forall_impl. intros line. apply includes_false. Qed.

Lemma split_lines (lines : list jstring) :
  lines <> [] -> Forall no_newline lines ->
  split newline (join [newline] lines) = lines.
Proof.
  destruct lines as [|x rest]; [congruence|]. intros _. apply split_join.
Qed.

Lemma defaultBranchOf_found (before : list jstring) (line : jstring)
  (after : list jstring) :
  Forall no_newline (before ++ line :: after) ->
  Forall (fun l => ~ occurs head_marker l) before ->
  occurs head_marker line ->
  defaultBranchOf (join [newline] (before ++ line :: after))
  = trim (replace head_pattern [] line).
Proof.
  intros Hnl Hbefore Hline. unfold defaultBranchOf.
  rewrite split_lines; [|now destruct before|exact Hnl].
  rewrite find_first.
  - destruct line as [|c line]; [|reflexivity].
    destruct Hline as [a [b Hab]]. destruct a; discriminate.
  - now apply not_occurs_includes.
  - now apply includes_spec.
Qed.

Lemma defaultBranchOf_absent (lines : list jstring) :
  Forall no_newline lines ->
  Forall (fun l => ~ occurs head_marker l) lines ->
  defaultBranchOf (join [newline] lines) = lit "main".
Proof.
  intros Hnl Hnone. unfold defaultBranchOf.
  destruct lines as [|x rest]; [reflexivity|].
  rewrite split_lines; [|discriminate|exact Hnl].
  rewrite find_absent; [reflexivity|]. now apply not_occurs_includes.
Qed.

(** The pattern right after the indentation of the line: what is left is
    the text after the pattern, trimmed. *)
Lemma trim_replace_indented (ind name : jstring) :
  all_ws ind ->
  trim (replace head_pattern [] (ind ++ head_pattern ++ name)) = trim name.
Proof.
  intros Hind.
  change head_pattern with (111%N :: lit "rigin/HEAD -> origin/").
  rewrite replace_after_indent by (assumption || reflexivity).
  unfold trim. simpl app. now rewrite trimStart_ws_app.
Qed.

Lemma trim_replace_without_pattern (line : jstring) :
  ~ occurs head_pattern line ->
  trim (replace head_pattern [] line) = trim line.
Proof.
  intros H. rewrite replace_absent; [reflexivity|]. now apply includes_false.
Qed.

(** ** The command executor *)

Lemma exec_error_none (child : Subprocess) :
  exec_error child = None
  <-> termination child = Exited 0 /\ overflow child = false.
Proof.
  unfold exec_error.
  destruct (overflow child), (termination child) as [[| |]| |];
    split; try intros [H1 H2]; try intros H; try split; congruence.
Qed.

Lemma exec_error_some (child : Subprocess) :
  exec_error child <> None
  <-> termination child <> Exited 0 \/ overflow child = true.
Proof.
  rewrite exec_error_none. destruct (overflow child); split.
  - now right.
  - intros _ [_ H]. discriminate.
  - intros H. left. intros Hexit. now apply H.
  - intros [H|H] [Hexit _]; [now apply H | discriminate].
Qed.

Lemma diagnostic_occurs (cmd : jstring) (child : Subprocess) :
  occurs cmd (diagnostic cmd child)
  /\ occurs (stderr child) (diagnostic cmd child).
Proof.
  unfold diagnostic, occurs. split.
  - now exists (lit "Error executing command: "), ([newline] ++ stderr child).
  - exists (lit "Error executing command: " ++ cmd ++ [newline]), [].
    now rewrite app_nil_r, <- !app_assoc.
Qed.

Section Runs.

Variable World : Type.
Variable exec : jstring -> jstring -> World -> ExecResult * World.
Variable this : Git.

Lemma runCommand_resolves (cmd : jstring) (w : World) (child : Subprocess)
  (w' : World) :
  exec cmd (cwd this) w = (CalledBack child, w') ->
  exec_error child = None ->
  runCommand exec this cmd w = (Resolved (trim (stdout child)), w').
Proof. intros Hrun Herr. unfold runCommand. now rewrite Hrun, Herr. Qed.

Lemma runCommand_rejects (cmd : jstring) (w : World) (child : Subprocess)
  (w' : World) :
  exec cmd (cwd this) w = (CalledBack child, w') ->
  exec_error child <> None ->
  runCommand exec this cmd w
  = (Rejected (OfError {| message := diagnostic cmd child |}), w').
Proof.
  intros Hrun Herr. unfold runCommand. rewrite Hrun.
  destruct (exec_error child); [reflexivity | now elim Herr].
Qed.

Lemma runCommand_throws (cmd : jstring) (w : World) (x : NodeError)
  (w' : World) :
  exec cmd (cwd this) w = (Threw x, w') ->
  runCommand exec this cmd w = (Rejected (OfNode x), w').
Proof. intros Hrun. unfold runCommand. now rewrite Hrun. Qed.

Lemma IndexTs_runCommand_resolves (cmd : jstring) (w : World)
  (child : Subprocess) (w' : World) :
  exec cmd (cwd this) w = (CalledBack child, w') ->
  exec_error child = None ->
  IndexTs.runCommand exec this cmd w = (Resolved (trim (stdout child)), w').
Proof. intros Hrun Herr. unfold IndexTs.runCommand. now rewrite Hrun, Herr. Qed.

Lemma IndexTs_runCommand_rejects (cmd : jstring) (w : World)
  (child : Subprocess) (w' : World) :
  exec cmd (cwd this) w = (CalledBack child, w') ->
  exec_error child <> None ->
  IndexTs.runCommand exec this cmd w
  = (Rejected (OfString (diagnostic cmd child)), w').
Proof.
  intros Hrun Herr. unfold IndexTs.runCommand. rewrite Hrun.
  destruct (exec_error child); [reflexivity | now elim Herr].
Qed.

Lemma IndexTs_runCommand_throws (cmd : jstring) (w : World) (x : NodeError)
  (w' : World) :
  exec cmd (cwd this) w = (Threw x, w') ->
  IndexTs.runCommand exec this cmd w = (Rejected (OfNode x), w').
Proof. intros Hrun. unfold IndexTs.runCommand. now rewrite Hrun. Qed.

End Runs.

(** C2, as the code has it. [runCommand] calls [exec] with the invocation
    and the working directory of the instance. When [exec] runs the command
    and the child exits with status zero without an output channel going
    over the limit of [exec], the promise resolves with the standard output
    trimmed: a whitespace prefix and a whitespace suffix are gone, what is
    between them is as it was, and the result neither begins nor ends with
    whitespace. When the child ends in any other way (another exit status, a
    signal, a failure to spawn) or a channel goes over the limit, also at
    exit status zero, the promise rejects with the diagnostic, in which the
    invocation and the standard error text both occur (the entry point
    rejects with the diagnostic itself, the current source with an [Error]
    that carries it). When [exec] throws, the promise rejects with what
    [exec] threw, and there is no diagnostic. Every method of the facade,
    in both sources, goes through [runCommand]. *)
Theorem runCommand_contract (World : Type)
  (exec : jstring -> jstring -> World -> ExecResult * World) (this : Git)
  (cmd : jstring) (w : World) (r : ExecResult) (w' : World) :
  exec cmd (cwd this) w = (r, w') ->
  (forall child, r = CalledBack child ->
     (termination child = Exited 0 -> overflow child = false ->
      runCommand exec this cmd w = (Resolved (trim (stdout child)), w')
      /\ IndexTs.runCommand exec this cmd w
         = (Resolved (trim (stdout child)), w'))
     /\ (termination child <> Exited 0 \/ overflow child = true ->
         exists msg,
           runCommand exec this cmd w
           = (Rejected (OfError {| message := msg |}), w')
           /\ IndexTs.runCommand exec this cmd w
              = (Rejected (OfString msg), w')
           /\ msg = lit "Error executing command: " ++ cmd ++ [newline]
                      ++ stderr child
           /\ occurs cmd msg /\ occurs (stderr child) msg)
     /\ (exists l r',
            stdout child = l ++ trim (stdout child) ++ r'
            /\ all_ws l /\ all_ws r'
            /\ (forall c t, trim (stdout child) = c :: t -> is_ws c = false)
            /\ (forall t c,
                   trim (stdout child) = t ++ [c] -> is_ws c = false)))
  /\ (forall x, r = Threw x ->
         runCommand exec this cmd w = (Rejected (OfNode x), w')
         /\ IndexTs.runCommand exec this cmd w = (Rejected (OfNode x), w'))
  /\ routed_through_runCommand exec this
  /\ entry_point_routed_through_runCommand exec this.
Proof.
  intros Hrun. split; [|split; [|split]].
  - intros child ->. split; [|split].
    + intros Hexit Hfit.
      assert (Herr : exec_error child = None)
        by (apply exec_error_none; now split).
      split.
      * now apply runCommand_resolves.
      * now apply IndexTs_runCommand_resolves.
    + intros Hfail. apply exec_error_some in Hfail.
      exists (diagnostic cmd child).
      split; [now apply runCommand_rejects|].
      split; [now apply IndexTs_runCommand_rejects|].
      split; [reflexivity|]. apply diagnostic_occurs.
    + apply trim_spec.
  - intros x ->. split.
    + now apply runCommand_throws.
    + now apply IndexTs_runCommand_throws.
  - unfold routed_through_runCommand. repeat split.
  - unfold entry_point_routed_through_runCommand. repeat split.
Qed.

(** The theorem at [git rev-parse --abbrev-ref HEAD] in [/repo], for a child
    that succeeds and for a child that fails. *)
Lemma runCommand_contract_witness :
  runCommand (Scripted.exec script_branch) repo
    (lit "git rev-parse --abbrev-ref HEAD") []
  = (Resolved (lit "feature x"),
     [(lit "git rev-parse --abbrev-ref HEAD", lit "/repo")])
  /\ exists msg,
       runCommand (Scripted.exec script_no_repository) repo
         (lit "git rev-parse --abbrev-ref HEAD") []
       = (Rejected (OfError {| message := msg |}),
          [(lit "git rev-parse --abbrev-ref HEAD", lit "/repo")])
       /\ occurs (lit "git rev-parse --abbrev-ref HEAD") msg
       /\ occurs (lit "fatal: not a git repository") msg.
Proof.
  split.
  - destruct (@runCommand_contract _ (Scripted.exec script_branch) repo
                (lit "git rev-parse --abbrev-ref HEAD") [] _ _ eq_refl)
      as [Hback _].
    destruct (Hback _ eq_refl) as [Hok _].
    exact (proj1 (Hok eq_refl eq_refl)).
  - destruct (@runCommand_contract _ (Scripted.exec script_no_repository)
                repo (lit "git rev-parse --abbrev-ref HEAD") [] _ _ eq_refl)
      as [Hback _].
    destruct (Hback _ eq_refl) as (_ & Hko & _).
    destruct Hko as [msg (Hrej & _ & _ & Hcmd & Herr)].
    + left. discriminate.
    + exists msg. repeat split; assumption.
Defined.

(** An exit with status zero does not suffice for [runCommand] to resolve,
    and not every failure carries the diagnostic. A child that exits with
    status zero after printing more than the limit of [exec] makes
    [runCommand] reject, with the diagnostic; and a command that [exec]
    refuses (it holds the code unit 0) makes [runCommand] reject with the
    error of [exec], which is no diagnostic and names no invocation. *)
Lemma runCommand_exit_zero_counterexample :
  (exists child w',
      Scripted.exec script_overflow (lit "git log") (cwd repo) []
      = (CalledBack child, w')
      /\ termination child = Exited 0
      /\ runCommand (Scripted.exec script_overflow) repo (lit "git log") []
         <> (Resolved (trim (stdout child)), w')
      /\ runCommand (Scripted.exec script_overflow) repo (lit "git log") []
         = (Rejected (OfError {| message := diagnostic (lit "git log")
                                              child |}), w'))
  /\ (exists x,
         runCommand (Scripted.exec script_refuses_nul) repo
           (lit "git tag v1" ++ [0%N] ++ lit "x") []
         = (Rejected (OfNode x),
            [(lit "git tag v1" ++ [0%N] ++ lit "x", lit "/repo")])
         /\ forall msg,
              runCommand (Scripted.exec script_refuses_nul) repo
                (lit "git tag v1" ++ [0%N] ++ lit "x") []
              <> (Rejected (OfError {| message := msg |}),
                  [(lit "git tag v1" ++ [0%N] ++ lit "x", lit "/repo")])).
Proof.
  split.
  - eexists. eexists. split; [reflexivity|]. split; [reflexivity|].
    split; [discriminate | reflexivity].
  - eexists. split; [reflexivity|]. intros msg. discriminate.
Qed.

(** ** The fail-soft probes *)

Lemma tryCommand_collapse {W : Type} (cmd : unit -> Promise W Reason jstring)
  (w : W) :
  tryCommand cmd w = collapse (cmd tt w).
Proof.
  unfold tryCommand, try_catch, bind, ret, collapse.
  now destruct (cmd tt w) as [[a|e] w'].
Qed.

Lemma IndexTs_tryCommand_collapse {W T : Type}
  (cmd : unit -> Promise W Reason T) (w : W) :
  IndexTs.tryCommand cmd w = collapse (cmd tt w).
Proof.
  unfold IndexTs.tryCommand, try_catch, bind, ret, collapse.
  now destruct (cmd tt w) as [[a|e] w'].
Qed.

Lemma collapse_runCommand (World : Type)
  (exec : jstring -> jstring -> World -> ExecResult * World) (this : Git)
  (cmd : jstring) (w : World) :
  collapse (runCommand exec this cmd w)
  = (Resolved (reported_success (fst (exec cmd (cwd this) w))),
     snd (exec cmd (cwd this) w)).
Proof.
  unfold runCommand, reported_success.
  destruct (exec cmd (cwd this) w) as [[x|child] w']; simpl; [reflexivity|].
  now destruct (exec_error child).
Qed.

Lemma collapse_IndexTs_runCommand (World : Type)
  (exec : jstring -> jstring -> World -> ExecResult * World) (this : Git)
  (cmd : jstring) (w : World) :
  collapse (IndexTs.runCommand exec this cmd w)
  = (Resolved (reported_success (fst (exec cmd (cwd this) w))),
     snd (exec cmd (cwd this) w)).
Proof.
  unfold IndexTs.runCommand, reported_success.
  destruct (exec cmd (cwd this) w) as [[x|child] w']; simpl; [reflexivity|].
  now destruct (exec_error child).
Qed.

(** C5. Each probe resolves with [true] when the command it wraps resolves,
    whatever text that command resolved with, and resolves with [false] when
    it rejects, whatever the rejection carried; a probe never rejects. The
    answer is decided by what the call of [exec] did alone: [true] when it
    called back without an error, [false] when it called back with one or
    threw, regardless of the text of either channel. *)
Theorem probes_fail_soft (World : Type)
  (exec : jstring -> jstring -> World -> ExecResult * World) (this : Git)
  (w : World) :
  let unstaged := lit "git diff --quiet" in
  let staged := lit "git diff --cached --quiet" in
  let upstream :=
    lit "git rev-parse --abbrev-ref --symbolic-full-name @{u}" in
  (hasNoUnstagedChanges exec this w
   = collapse (runCommand exec this unstaged w)
   /\ hasNoStagedChanges exec this w
      = collapse (runCommand exec this staged w)
   /\ hasUpstreamBranch exec this w
      = collapse (runCommand exec this upstream w))
  /\ (hasNoUnstagedChanges exec this w
      = (Resolved (reported_success (fst (exec unstaged (cwd this) w))),
         snd (exec unstaged (cwd this) w))
      /\ hasNoStagedChanges exec this w
         = (Resolved (reported_success (fst (exec staged (cwd this) w))),
            snd (exec staged (cwd this) w))
      /\ hasUpstreamBranch exec this w
         = (Resolved (reported_success (fst (exec upstream (cwd this) w))),
            snd (exec upstream (cwd this) w)))
  /\ (IndexTs.hasNoUnstagedChanges exec this w
      = collapse (IndexTs.runCommand exec this unstaged w)
      /\ IndexTs.hasNoStagedChanges exec this w
         = collapse (IndexTs.runCommand exec this staged w)
      /\ IndexTs.hasUpstreamBranch exec this w
         = collapse (IndexTs.runCommand exec this upstream w)).
Proof.
  intros unstaged staged upstream.
  unfold hasNoUnstagedChanges, hasNoStagedChanges, hasUpstreamBranch,
    IndexTs.hasNoUnstagedChanges, IndexTs.hasNoStagedChanges,
    IndexTs.hasUpstreamBranch.
  rewrite !tryCommand_collapse, !IndexTs_tryCommand_collapse.
  rewrite !collapse_runCommand. repeat split.
Qed.

(** ** [isWorkingDirClean] *)

Lemma probe_resolves (World : Type)
  (exec : jstring -> jstring -> World -> ExecResult * World) (this : Git)
  (w : World) :
  (exists b w', hasNoUnstagedChanges exec this w = (Resolved b, w'))
  /\ (exists b w', hasNoStagedChanges exec this w = (Resolved b, w'))
  /\ (exists b w', IndexTs.hasNoUnstagedChanges exec this w = (Resolved b, w'))
  /\ (exists b w', IndexTs.hasNoStagedChanges exec this w = (Resolved b, w')).
Proof.
  unfold hasNoUnstagedChanges, hasNoStagedChanges,
    IndexTs.hasNoUnstagedChanges, IndexTs.hasNoStagedChanges.
  rewrite !tryCommand_collapse, !IndexTs_tryCommand_collapse.
  rewrite !collapse_runCommand, !collapse_IndexTs_runCommand.
  repeat split; eexists; eexists; reflexivity.
Qed.

(** C8. [isWorkingDirClean] runs the unstaged probe, then the staged probe
    in the world the first one left, and resolves with the conjunction of
    the two answers: [true] exactly when both are [true], [false] when the
    first is [true] and the second [false]. With a child that succeeds for
    [git diff --quiet] and fails for [git diff --cached --quiet] the answer
    is [false], and the two invocations ran in that order. *)
Theorem isWorkingDirClean_conjunction (World : Type)
  (exec : jstring -> jstring -> World -> ExecResult * World) (this : Git)
  (w : World) :
  (exists unstagedClean w1 stagedClean w2,
      hasNoUnstagedChanges exec this w = (Resolved unstagedClean, w1)
      /\ hasNoStagedChanges exec this w1 = (Resolved stagedClean, w2)
      /\ isWorkingDirClean exec this w
         = (Resolved (unstagedClean && stagedClean), w2)
      /\ (unstagedClean && stagedClean = true
          <-> unstagedClean = true /\ stagedClean = true)
      /\ (unstagedClean = true -> stagedClean = false ->
          isWorkingDirClean exec this w = (Resolved false, w2)))
  /\ (exists unstagedClean w1 stagedClean w2,
         IndexTs.hasNoUnstagedChanges exec this w
         = (Resolved unstagedClean, w1)
         /\ IndexTs.hasNoStagedChanges exec this w1
            = (Resolved stagedClean, w2)
         /\ IndexTs.isWorkingDirClean exec this w
            = (Resolved (unstagedClean && stagedClean), w2)
         /\ (unstagedClean && stagedClean = true
             <-> unstagedClean = true /\ stagedClean = true))
  /\ isWorkingDirClean (Scripted.exec script_staged_changes) repo []
     = (Resolved false,
        [(lit "git diff --cached --quiet", lit "/repo");
         (lit "git diff --quiet", lit "/repo")]).
Proof.
  split; [|split; [|reflexivity]].
  - destruct (probe_resolves exec this w) as ([b1 [w1 H1]] & _).
    destruct (probe_resolves exec this w1) as (_ & [b2 [w2 H2]] & _).
    exists b1, w1, b2, w2.
    assert (Hclean : isWorkingDirClean exec this w
                     = (Resolved (b1 && b2), w2)).
    { unfold isWorkingDirClean, bind, ret. now rewrite H1, H2. }
    split; [exact H1|]. split; [exact H2|]. split; [exact Hclean|].
    split; [apply andb_true_iff|]. intros -> ->. exact Hclean.
  - destruct (probe_resolves exec this w) as (_ & _ & [b1 [w1 H1]] & _).
    destruct (probe_resolves exec this w1) as (_ & _ & _ & [b2 [w2 H2]]).
    exists b1, w1, b2, w2.
    split; [exact H1|]. split; [exact H2|].
    split; [|apply andb_true_iff].
    unfold IndexTs.isWorkingDirClean, bind, ret. now rewrite H1, H2.
Qed.

(** ** The methods that return the instance *)

Lemma bind_returning {W E A : Type} (p : Promise W E A) (this : Git) (w : W) :
  bind p (fun _ => ret this) w = returning this (p w).
Proof. unfold bind, ret, returning. now destruct (p w) as [[a|e] w']. Qed.

(** C9. [init], [clone], [checkout] and [commit] run their invocation
    through the executor; when it resolves they resolve with the instance
    they were called on, not with the text the command printed, and when it
    rejects they reject with the executor's rejection. *)
Theorem chaining_methods_return_this (World : Type)
  (exec : jstring -> jstring -> World -> ExecResult * World) (this : Git)
  (w : World) :
  init exec this w
  = returning this (runCommand exec this (lit "git init") w)
  /\ (forall url dir,
         clone exec this url dir w
         = returning this
             (runCommand exec this (clone_invocation url dir) w))
  /\ (forall target flags,
         checkout exec this target flags w
         = returning this
             (runCommand exec this (checkout_invocation target flags) w))
  /\ (forall message flags,
         commit exec this message flags w
         = returning this
             (runCommand exec this (commit_invocation message flags) w))
  /\ (forall cmd text w',
         runCommand exec this cmd w = (Resolved text, w') ->
         returning this (runCommand exec this cmd w) = (Resolved this, w'))
  /\ (forall cmd e w',
         runCommand exec this cmd w = (Rejected e, w') ->
         returning this (runCommand exec this cmd w)
         = (@Rejected Reason Git e, w')).
Proof.
  split; [apply bind_returning|].
  split; [intros; apply bind_returning|].
  split; [intros; apply bind_returning|].
  split; [intros; apply bind_returning|].
  split; intros ? ? ? H; now rewrite H.
Qed.

(** The theorem at [git init] in [/repo], for a child that succeeds and for
    a child that fails. *)
Lemma chaining_methods_return_this_witness :
  init (Scripted.exec script_branch) repo []
  = (Resolved repo, [(lit "git init", lit "/repo")])
  /\ init (Scripted.exec script_no_repository) repo []
     = (Rejected
          (OfError {| message := lit "Error executing command: git init"
                                   ++ [newline]
                                   ++ lit "fatal: not a git repository" |}),
        [(lit "git init", lit "/repo")]).
Proof.
  pose proof (@chaining_methods_return_this _
                (Scripted.exec script_branch) repo []) as Hok.
  pose proof (@chaining_methods_return_this _
                (Scripted.exec script_no_repository) repo []) as Hko.
  destruct Hok as (Hinit & _ & _ & _ & Hres & _).
  destruct Hko as (Hinit' & _ & _ & _ & _ & Hrej).
  split.
  - rewrite Hinit. apply (Hres _ (lit "feature x")). reflexivity.
  - rewrite Hinit'. apply Hrej. reflexivity.
Defined.

(** ** [getDefaultBranchName] *)

(** C4. [getDefaultBranchName] lists the remote branches with
    [git branch -r], through the executor. When the listing fails, the
    method rejects with the executor's rejection: the diagnostic when
    [exec] reports an error, what [exec] threw when it throws. When the
    executor resolves, the text it resolved with (the trimmed output) is
    read line by line: for the first line in which [origin/HEAD] occurs,
    the method resolves with that line after the leftmost
    [origin/HEAD -> origin/] is taken out of it and the rest is trimmed,
    which is the trimmed text after the pattern when the pattern opens the
    line after its indentation, and the trimmed line when the pattern does
    not occur in it; when [origin/HEAD] occurs in no line, the method
    resolves with [main]. *)
Theorem getDefaultBranchName_inference (World : Type)
  (exec : jstring -> jstring -> World -> ExecResult * World) (this : Git)
  (w : World) :
  (forall e w',
      runCommand exec this (lit "git branch -r") w = (Rejected e, w') ->
      getDefaultBranchName exec this w = (Rejected e, w'))
  /\ (forall branches w',
         runCommand exec this (lit "git branch -r") w
         = (Resolved branches, w') ->
         forall lines,
           branches = join [newline] lines ->
           Forall no_newline lines ->
           (forall before line after,
               lines = before ++ line :: after ->
               Forall (fun l => ~ occurs head_marker l) before ->
               occurs head_marker line ->
               exists branchName,
                 getDefaultBranchName exec this w
                 = (Resolved branchName, w')
                 /\ branchName = trim (replace head_pattern [] line)
                 /\ (forall ind name,
                        all_ws ind -> line = ind ++ head_pattern ++ name ->
                        branchName = trim name)
                 /\ (~ occurs head_pattern line -> branchName = trim line))
           /\ (Forall (fun l => ~ occurs head_marker l) lines ->
               getDefaultBranchName exec this w
               = (Resolved (lit "main"), w')))
  /\ (forall r w',
         exec (lit "git branch -r") (cwd this) w = (r, w') ->
         (forall x, r = Threw x ->
            getDefaultBranchName exec this w = (Rejected (OfNode x), w'))
         /\ (forall child, r = CalledBack child ->
               (exec_error child <> None ->
                getDefaultBranchName exec this w
                = (Rejected
                     (OfError {| message := diagnostic (lit "git branch -r")
                                              child |}), w'))
               /\ (exec_error child = None ->
                   runCommand exec this (lit "git branch -r") w
                   = (Resolved (trim (stdout child)), w')))).
Proof.
  assert (Hrej : forall e w',
             runCommand exec this (lit "git branch -r") w = (Rejected e, w') ->
             getDefaultBranchName exec this w = (Rejected e, w')).
  { intros e w' H. unfold getDefaultBranchName, bind. now rewrite H. }
  split; [exact Hrej|]. split.
  - intros branches w' Hrun lines -> Hnl.
    assert (Hres : getDefaultBranchName exec this w
                   = (Resolved (defaultBranchOf (join [newline] lines)), w')).
    { unfold getDefaultBranchName, bind, ret. now rewrite Hrun. }
    split.
    + intros before line after -> Hbefore Hline.
      exists (trim (replace head_pattern [] line)).
      split; [|split; [reflexivity|split]].
      * now rewrite Hres, defaultBranchOf_found.
      * intros ind name Hind ->. now apply trim_replace_indented.
      * apply trim_replace_without_pattern.
    + intros Hnone. now rewrite Hres, defaultBranchOf_absent.
  - intros r w' Hexec. split.
    + intros x ->. apply Hrej. now apply runCommand_throws.
    + intros child ->. split.
      * intros Herr. apply Hrej. now apply runCommand_rejects.
      * intros Herr. now apply runCommand_resolves.
Qed.

(** The theorem at the listing of two remotes: the default branch is
    [develop]. *)
Lemma getDefaultBranchName_inference_witness :
  getDefaultBranchName (Scripted.exec script_listing) repo []
  = (Resolved (lit "develop"), [(lit "git branch -r", lit "/repo")]).
Proof.
  destruct (@getDefaultBranchName_inference _
              (Scripted.exec script_listing) repo [])
    as (_ & Hok & _).
  destruct (Hok (lit "fork/main" ++ [newline]
                   ++ lit "  origin/HEAD -> origin/develop" ++ [newline]
                   ++ lit "  origin/develop")
              [(lit "git branch -r", lit "/repo")] eq_refl
              [lit "fork/main"; lit "  origin/HEAD -> origin/develop";
               lit "  origin/develop"]) as [Hfound _].
  - reflexivity.
  - repeat constructor; unfold no_newline; vm_compute; intuition discriminate.
  - destruct (Hfound [lit "fork/main"]
                (lit "  origin/HEAD -> origin/develop")
                [lit "  origin/develop"])
      as [branchName (Hrun & _ & Hname & _)].
    + reflexivity.
    + constructor; [|constructor]. now apply includes_false.
    + now apply includes_spec.
    + rewrite Hrun. f_equal. f_equal.
      apply (Hname (lit "  ") (lit "develop")); [|reflexivity].
      repeat constructor.
Defined.

(** * Further properties *)

(** ** More on strings *)

Lemma split_app (sep : char) (x y : jstring) :
  split sep (x ++ sep :: y) = split sep x ++ split sep y.
Proof.
  induction x as [|c x IH]; simpl.
  - now rewrite N.eqb_refl.
  - destruct (N.eqb_spec c sep) as [->|Hne]; rewrite IH; [reflexivity|].
    destruct (split sep x) as [|piece rest] eqn:E;
      [now apply split_nonempty in E | reflexivity].
Qed.

Lemma split_join_flat (sep : char) (x : jstring) (rest : list jstring) :
  split sep (join [sep] (x :: rest)) = flat_map (split sep) (x :: rest).
Proof.
  revert x; induction rest as [|y rest IH]; intros x.
  - simpl. now rewrite app_nil_r.
  - rewrite join_cons.
    change ([sep] ++ join [sep] (y :: rest))
      with (sep :: join [sep] (y :: rest)).
    rewrite split_app, IH. reflexivity.
Qed.

Lemma flat_map_split_pieces (sep : char) (l : list jstring) :
  Forall (fun piece => ~ In sep piece) l -> flat_map (split sep) l = l.
Proof.
  induction 1 as [|x l Hx _ IH]; simpl; [reflexivity|].
  now rewrite split_piece, IH.
Qed.

Lemma trim_idempotent (s : jstring) : trim (trim s) = trim s.
Proof.
  destruct (trim_spec s) as (l & r & _ & _ & _ & Hfirst & Hlast).
  rewrite <- (app_nil_r (trim s)) at 1.
  change (trim s ++ []) with ([] ++ trim s ++ []).
  apply trim_surrounded; try constructor; assumption.
Qed.

Lemma In_trimStart (c : char) (s : jstring) : In c (trimStart s) -> In c s.
Proof.
  induction s as [|x s IH]; simpl; [tauto|].
  destruct (is_ws x); [intros H; right; now apply IH | tauto].
Qed.

Lemma In_trim (c : char) (s : jstring) : In c (trim s) -> In c s.
Proof.
  unfold trim, trimEnd. intros H.
  apply In_trimStart. apply in_rev. apply In_trimStart. now apply in_rev.
Qed.

Lemma In_skipn (c : char) (n : nat) (s : jstring) :
  In c (skipn n s) -> In c s.
Proof.
  revert s; induction n as [|n IH]; intros [|x s]; simpl; auto.
Qed.

Lemma In_replace_nil (c : char) (p s : jstring) :
  In c (replace p [] s) -> In c s.
Proof.
  induction s as [|x s IH]; simpl.
  - destruct (startsWith p []); simpl; [apply In_skipn | tauto].
  - destruct (startsWith p (x :: s)).
    + apply (In_skipn c (List.length p) (x :: s)).
    + intros [H|H]; [now left | right; now apply IH].
Qed.

Lemma escape_quotes_without_quote (s : jstring) :
  ~ In dquote s -> escape_quotes s = s.
Proof.
  induction s as [|c s IH]; intros H; [reflexivity|].
  rewrite escape_quotes_cons.
  destruct (N.eqb_spec c dquote) as [->|Hne]; [elim H; now left|].
  simpl. rewrite IH; [reflexivity | intros Hin; apply H; now right].
Qed.

(** ** The constructor *)

(** X1. The working directory of a new instance is the [cwd] option when it
    is a non-empty string and the directory of the process otherwise: an
    empty option counts as an omitted one, and the directory of an instance
    is not empty when that of the process is not. *)
Theorem new_Git_working_directory (process_cwd : jstring)
  (options : GitOptions) :
  process_cwd <> [] ->
  cwd (new_Git process_cwd options) <> []
  /\ (forall c, options_cwd options = Some c -> c <> [] ->
                cwd (new_Git process_cwd options) = c)
  /\ (options_cwd options = None \/ options_cwd options = Some [] ->
      cwd (new_Git process_cwd options) = process_cwd).
Proof.
  intros Hpc. unfold new_Git. simpl.
  destruct (options_cwd options) as [[|c t]|]; simpl.
  - split; [exact Hpc|]. split; [intros c H; now injection H as <-|reflexivity].
  - split; [discriminate|].
    split; [intros c' H _; now injection H as <-|].
    intros [H|H]; discriminate.
  - split; [exact Hpc|]. split; [discriminate|reflexivity].
Qed.

(** The theorem for a process in [/home] and the options [{ cwd: "" }]. *)
Lemma new_Git_working_directory_witness :
  cwd (new_Git (lit "/home") {| options_cwd := Some [] |}) = lit "/home".
Proof.
  refine (proj2 (proj2 (@new_Git_working_directory (lit "/home")
                          {| options_cwd := Some [] |} _)) _).
  - discriminate.
  - now right.
Defined.

(** ** The calls of [exec] a call makes *)

Lemma logs_ret {World E A : Type} (a : A) :
  logs (@ret (World * list (jstring * jstring)) E A a) (ret a) [].
Proof. intros w log. unfold ret, with_log. simpl. now rewrite app_nil_r. Qed.

Lemma logs_bind_pure {World E A B : Type}
  (pl : Promise (World * list (jstring * jstring)) E A)
  (p : Promise World E A) (entries : list (jstring * jstring))
  (kl : A -> Promise (World * list (jstring * jstring)) E B)
  (k : A -> Promise World E B) :
  logs pl p entries -> (forall a, logs (kl a) (k a) []) ->
  logs (bind pl kl) (bind p k) entries.
Proof.
  intros Hp Hk w log. unfold bind. rewrite Hp. unfold with_log.
  destruct (p w) as [[a|e] w']; simpl; [|reflexivity].
  rewrite Hk. unfold with_log. now rewrite app_nil_r.
Qed.

Lemma logs_bind_resolving {World E A B : Type}
  (pl : Promise (World * list (jstring * jstring)) E A)
  (p : Promise World E A) (l1 : list (jstring * jstring))
  (kl : A -> Promise (World * list (jstring * jstring)) E B)
  (k : A -> Promise World E B) (l2 : list (jstring * jstring)) :
  logs pl p l1 -> (forall w, exists a w', p w = (Resolved a, w')) ->
  (forall a, logs (kl a) (k a) l2) ->
  logs (bind pl kl) (bind p k) (l1 ++ l2).
Proof.
  intros Hp Hres Hk w log. unfold bind. rewrite Hp. unfold with_log.
  destruct (Hres w) as [a [w' Hw]]. rewrite Hw. simpl.
  rewrite Hk. unfold with_log. now rewrite app_assoc.
Qed.

Lemma logs_tryCommand {World : Type}
  (cl : unit -> Promise (World * list (jstring * jstring)) Reason jstring)
  (c : unit -> Promise World Reason jstring)
  (entries : list (jstring * jstring)) :
  (forall u, logs (cl u) (c u) entries) ->
  logs (tryCommand cl) (tryCommand c) entries.
Proof.
  intros Hc w log. rewrite !tryCommand_collapse, Hc. unfold with_log, collapse.
  now destruct (c tt w) as [[a|e] w'].
Qed.

Lemma tryCommand_resolves {World : Type}
  (c : unit -> Promise World Reason jstring) (w : World) :
  exists b w', tryCommand c w = (Resolved b, w').
Proof.
  rewrite tryCommand_collapse. unfold collapse.
  destruct (c tt w) as [[a|e] w']; eexists; eexists; reflexivity.
Qed.

Lemma logs_runCommand (World : Type)
  (exec : jstring -> jstring -> World -> ExecResult * World) (this : Git)
  (cmd : jstring) :
  logs (runCommand (logged exec) this cmd) (runCommand exec this cmd)
       [(cmd, cwd this)].
Proof.
  intros w log. unfold runCommand, logged, with_log. simpl.
  destruct (exec cmd (cwd this) w) as [[x|child] w']; [reflexivity|].
  now destruct (exec_error child).
Qed.

(** X2. A call of [runCommand] calls [exec] once, with its invocation and
    the working directory of the instance, whatever [exec] does then (it
    throws, it reports an error, it reports none): nothing is retried, and
    at most one child is started. So does each method of the facade, for
    the invocation it builds, except [isWorkingDirClean], which calls [exec]
    twice: for the unstaged probe, then for the staged probe, also when the
    first one answers [false]. Keeping the log changes no outcome. *)
Theorem exec_calls_of_a_call (World : Type)
  (exec : jstring -> jstring -> World -> ExecResult * World) (this : Git) :
  let one (cmd : jstring) := [(cmd, cwd this)] in
  (forall cmd,
      logs (runCommand (logged exec) this cmd) (runCommand exec this cmd)
           (one cmd))
  /\ logs (getUserName (logged exec) this) (getUserName exec this)
          (one (lit "git config user.name"))
  /\ logs (getUserEmail (logged exec) this) (getUserEmail exec this)
          (one (lit "git config user.email"))
  /\ logs (getCurrentBranchName (logged exec) this)
          (getCurrentBranchName exec this)
          (one (lit "git rev-parse --abbrev-ref HEAD"))
  /\ (forall name,
         logs (setUserName (logged exec) this name)
              (setUserName exec this name)
              (one (setUserName_invocation name)))
  /\ (forall email,
         logs (setUserEmail (logged exec) this email)
              (setUserEmail exec this email)
              (one (setUserEmail_invocation email)))
  /\ (forall path,
         logs (add (logged exec) this path) (add exec this path)
              (one (add_invocation path)))
  /\ (forall hashValue flag,
         logs (reset (logged exec) this hashValue flag)
              (reset exec this hashValue flag)
              (one (reset_invocation hashValue flag)))
  /\ (forall target flag,
         logs (restore (logged exec) this target flag)
              (restore exec this target flag)
              (one (restore_invocation target flag)))
  /\ (forall value flags,
         logs (tag (logged exec) this value flags)
              (tag exec this value flags)
              (one (tag_invocation value flags)))
  /\ (forall branchName flags,
         logs (merge (logged exec) this branchName flags)
              (merge exec this branchName flags)
              (one (merge_invocation branchName flags)))
  /\ (forall name flags,
         logs (branch (logged exec) this name flags)
              (branch exec this name flags)
              (one (branch_invocation name flags)))
  /\ logs (hasNoUnstagedChanges (logged exec) this)
          (hasNoUnstagedChanges exec this) (one (lit "git diff --quiet"))
  /\ logs (hasNoStagedChanges (logged exec) this)
          (hasNoStagedChanges exec this)
          (one (lit "git diff --cached --quiet"))
  /\ logs (hasUpstreamBranch (logged exec) this)
          (hasUpstreamBranch exec this)
          (one (lit "git rev-parse --abbrev-ref --symbolic-full-name @{u}"))
  /\ logs (isWorkingDirClean (logged exec) this)
          (isWorkingDirClean exec this)
          (one (lit "git diff --quiet")
             ++ one (lit "git diff --cached --quiet"))
  /\ logs (getDefaultBranchName (logged exec) this)
          (getDefaultBranchName exec this) (one (lit "git branch -r"))
  /\ logs (init (logged exec) this) (init exec this) (one (lit "git init"))
  /\ (forall message flags,
         logs (commit (logged exec) this message flags)
              (commit exec this message flags)
              (one (commit_invocation message flags)))
  /\ (forall url dir,
         logs (clone (logged exec) this url dir) (clone exec this url dir)
              (one (clone_invocation url dir)))
  /\ (forall remote branch flags,
         logs (push (logged exec) this remote branch flags)
              (push exec this remote branch flags)
              (one (push_invocation remote branch flags)))
  /\ (forall target flags,
         logs (checkout (logged exec) this target flags)
              (checkout exec this target flags)
              (one (checkout_invocation target flags))).
Proof.
  intros one.
  assert (Hprobe : forall cmd,
             logs (tryCommand (fun _ => runCommand (logged exec) this cmd))
                  (tryCommand (fun _ => runCommand exec this cmd))
                  (one cmd)).
  { intros cmd. apply logs_tryCommand. intros _. apply logs_runCommand. }
  assert (Hthis : forall cmd,
             logs (bind (runCommand (logged exec) this cmd)
                        (fun _ => ret this))
                  (bind (runCommand exec this cmd) (fun _ => ret this))
                  (one cmd)).
  { intros cmd. apply logs_bind_pure; [apply logs_runCommand|].
    intros _. apply logs_ret. }
  split; [intros cmd; apply logs_runCommand|].
  do 3 (split; [apply logs_runCommand|]).
  do 8 (split; [intros; apply logs_runCommand|]).
  do 3 (split; [apply Hprobe|]).
  split.
  { unfold isWorkingDirClean. apply logs_bind_resolving.
    - apply Hprobe.
    - intros w. apply tryCommand_resolves.
    - intros unstagedClean. apply logs_bind_pure; [apply Hprobe|].
      intros stagedClean. apply logs_ret. }
  split.
  { unfold getDefaultBranchName. apply logs_bind_pure; [apply logs_runCommand|].
    intros branches. apply logs_ret. }
  split; [apply Hthis|].
  split; [intros; apply Hthis|].
  split; [intros; apply Hthis|].
  split; intros; apply Hthis.
Qed.

(** ** Chained calls *)

(** X3. [push] resolves with the instance it was called on, so a call can
    be chained after [commit]. In the chain [commit] then [push], a commit
    that fails rejects the chain with the commit's rejection (the
    diagnostic when [exec] reports an error, what [exec] threw when it
    throws) and [exec] is not called for the push; after a commit for which
    [exec] reports no error the chain goes on as the push on the same
    instance, in the world the commit left: [exec] is called next for the
    push invocation, and the chain can resolve with that instance only. *)
Theorem commit_then_push (World : Type)
  (exec : jstring -> jstring -> World -> ExecResult * World) (this : Git)
  (message : jstring) (flags remote branch pushFlags : option jsvalue)
  (w : World) (log : list (jstring * jstring)) (r : ExecResult)
  (w1 : World) :
  let chain :=
    bind (commit (logged exec) this message flags)
         (fun git => push (logged exec) git remote branch pushFlags) in
  let committed := log ++ [(commit_invocation message flags, cwd this)] in
  exec (commit_invocation message flags) (cwd this) w = (r, w1) ->
  (forall x, r = Threw x ->
     chain (w, log) = (Rejected (OfNode x), (w1, committed)))
  /\ (forall child, r = CalledBack child ->
        (exec_error child <> None ->
         chain (w, log)
         = (Rejected
              (OfError {| message := diagnostic
                                       (commit_invocation message flags)
                                       child |}),
            (w1, committed)))
        /\ (exec_error child = None ->
            chain (w, log) = push (logged exec) this remote branch pushFlags
                               (w1, committed)
            /\ snd (snd (chain (w, log)))
               = committed
                   ++ [(push_invocation remote branch pushFlags, cwd this)]
            /\ (forall git st,
                   chain (w, log) = (Resolved git, st) -> git = this))).
Proof.
  intros chain committed Hrun.
  assert (Hlogged : logged exec (commit_invocation message flags) (cwd this)
                      (w, log) = (r, (w1, committed))).
  { unfold logged. simpl. now rewrite Hrun. }
  split.
  - intros x ->. unfold chain, commit, bind.
    now rewrite (runCommand_throws _ _ _ _ Hlogged).
  - intros child ->. split.
    + intros Herr. unfold chain, commit, bind.
      now rewrite (runCommand_rejects _ _ _ _ Hlogged Herr).
    + intros Herr.
      assert (Hchain : chain (w, log)
                       = push (logged exec) this remote branch pushFlags
                           (w1, committed)).
      { unfold chain, commit, bind at 1 2, ret.
        now rewrite (runCommand_resolves _ _ _ _ Hlogged Herr). }
      assert (Hpush : push (logged exec) this remote branch pushFlags
                        (w1, committed)
                      = returning this
                          (with_log
                             (runCommand exec this
                                (push_invocation remote branch pushFlags) w1)
                             (committed
                                ++ [(push_invocation remote branch pushFlags,
                                     cwd this)]))).
      { unfold push. rewrite bind_returning. now rewrite logs_runCommand. }
      split; [exact Hchain|]. rewrite Hchain, Hpush.
      unfold with_log, returning.
      destruct (runCommand exec this _ w1) as [[text|e] w2]; simpl.
      * split; [reflexivity|]. intros git st H. now injection H as <- _.
      * split; [reflexivity|]. intros git st H. discriminate.
Qed.

(** The theorem in [/repo] for a commit that fails: the log holds the call
    for the commit alone. *)
Lemma commit_then_push_witness :
  snd (bind (commit (logged (Scripted.exec script_no_repository)) repo
               (lit "wip") None)
            (fun git => push (logged (Scripted.exec script_no_repository))
                          git None None None)
         ([], []))
  = ([(commit_invocation (lit "wip") None, lit "/repo")],
     [(commit_invocation (lit "wip") None, lit "/repo")]).
Proof.
  pose proof (@commit_then_push _ (Scripted.exec script_no_repository)
                repo (lit "wip") None None None None [] [] _ _ eq_refl)
    as [_ Hback].
  destruct (Hback _ eq_refl) as [Hfail _].
  assert (Herr : exec_error
                   {| termination := Exited 128; overflow := false;
                      stdout := [];
                      stderr := lit "fatal: not a git repository" |}
                 <> None) by discriminate.
  exact (f_equal snd (Hfail Herr)).
Defined.

(** ** Empty flags *)

(** X4. An empty string given as the flag is an omitted flag, in every
    method that takes flags. An empty list of flags is an omitted argument
    for [branch] and [push] only: [commit] then ends its invocation with a
    space, and [tag], [merge] and [checkout] put two spaces before their
    target. *)
Theorem empty_flag_values :
  (forall message,
      commit_invocation message (Some (Str []))
      = commit_invocation message None)
  /\ (forall value,
         tag_invocation value (Some (Str [])) = tag_invocation value None)
  /\ (forall branchName,
         merge_invocation branchName (Some (Str []))
         = merge_invocation branchName None)
  /\ (forall target,
         checkout_invocation target (Some (Str []))
         = checkout_invocation target None)
  /\ (forall name,
         branch_invocation name (Some (Str [])) = branch_invocation name None)
  /\ (forall remote branch,
         push_invocation remote branch (Some (Str []))
         = push_invocation remote branch None)
  /\ (forall hashValue,
         reset_invocation hashValue (Some []) = reset_invocation hashValue None)
  /\ (forall target,
         restore_invocation target (Some []) = restore_invocation target None)
  /\ (forall name,
         branch_invocation name (Some (Arr [])) = branch_invocation name None)
  /\ (forall remote branch,
         push_invocation remote branch (Some (Arr []))
         = push_invocation remote branch None)
  /\ (forall message,
         commit_invocation message (Some (Arr []))
         = commit_invocation message None ++ lit " ")
  /\ (forall value,
         tag_invocation value (Some (Arr [])) = lit "git tag  " ++ value)
  /\ (forall branchName,
         merge_invocation branchName (Some (Arr []))
         = lit "git merge  " ++ branchName)
  /\ (forall target,
         checkout_invocation target (Some (Arr []))
         = lit "git checkout  " ++ target).
Proof.
  do 5 (split; [reflexivity|]).
  split.
  { intros [[r|a]|] [[b|a']|]; reflexivity. }
  do 4 (split; [reflexivity|]).
  split.
  { intros message. unfold commit_invocation.
    now rewrite !app_nil_r, <- !app_assoc. }
  repeat split.
Qed.

(** ** The words of an invocation *)

Lemma branch_typed (name : option jstring) (fs : list BranchFlag) :
  branch_invocation name (Some (flagList fs))
  = join (lit " ") (lit "git branch" :: map token fs ++ filterBoolean [name]).
Proof.
  unfold branch_invocation, flagList. cbv beta iota zeta delta [param].
  rewrite !filterBoolean_app, filterBoolean_tokens. reflexivity.
Qed.

Lemma bare_words_filterBoolean (name : option jstring) :
  flat_map (split space) (filterBoolean [name]) = bare_words name.
Proof.
  destruct name as [[|c t]|]; try reflexivity.
  cbn [filterBoolean flat_map truthy app bare_words]. now rewrite app_nil_r.
Qed.

Section Words.

Context {F : Type} {FT : FlagType F} {FOk : FlagTypeOk F}.

Lemma words_after_flags (verb : jstring) (f : F) (fs : list F)
  (target : jstring) :
  split space (verb ++ space :: flagStr (Some (flagList (f :: fs))) ++ target)
  = split space verb ++ map token (f :: fs) ++ split space target.
Proof.
  rewrite split_app. f_equal. unfold flagStr, flagList.
  rewrite <- app_assoc.
  change (lit " " ++ target) with (space :: target).
  now rewrite split_app, split_join_tokens.
Qed.

End Words.

(** X5. Read at its spaces, the invocation of [tag], [merge] and
    [checkout] is the two words of the command, the flags in the caller's
    order, and the words of the target: the target is not quoted, so a space
    in it starts a new word. [branch] and [reset] build theirs from the
    non-empty parts only: an omitted or empty name or hash adds no word, and
    the flag of [reset] stands before the hash. *)
Theorem invocation_words :
  (forall value (f : TagFlag) fs,
      split space (tag_invocation value (Some (flagList (f :: fs))))
      = [lit "git"; lit "tag"] ++ map token (f :: fs) ++ split space value)
  /\ (forall value,
         split space (tag_invocation value None)
         = [lit "git"; lit "tag"] ++ split space value)
  /\ (forall branchName (f : MergeFlag) fs,
         split space (merge_invocation branchName (Some (flagList (f :: fs))))
         = [lit "git"; lit "merge"] ++ map token (f :: fs)
             ++ split space branchName)
  /\ (forall branchName,
         split space (merge_invocation branchName None)
         = [lit "git"; lit "merge"] ++ split space branchName)
  /\ (forall target (f : CheckoutFlag) fs,
         split space (checkout_invocation target (Some (flagList (f :: fs))))
         = [lit "git"; lit "checkout"] ++ map token (f :: fs)
             ++ split space target)
  /\ (forall target,
         split space (checkout_invocation target None)
         = [lit "git"; lit "checkout"] ++ split space target)
  /\ (forall name (fs : list BranchFlag),
         split space (branch_invocation name (Some (flagList fs)))
         = [lit "git"; lit "branch"] ++ map token fs ++ bare_words name)
  /\ (forall hashValue (f : ResetFlag),
         split space (reset_invocation hashValue (Some (token f)))
         = [lit "git"; lit "reset"; token f] ++ bare_words (Some hashValue))
  /\ (forall hashValue,
         split space (reset_invocation hashValue None)
         = [lit "git"; lit "reset"] ++ bare_words (Some hashValue)).
Proof.
  split.
  { intros value f fs.
    apply (words_after_flags (lit "git tag") f fs value). }
  split.
  { intros value. apply (split_app space (lit "git tag") value). }
  split.
  { intros branchName f fs.
    apply (words_after_flags (lit "git merge") f fs branchName). }
  split.
  { intros branchName. apply (split_app space (lit "git merge") branchName). }
  split.
  { intros target f fs.
    apply (words_after_flags (lit "git checkout") f fs target). }
  split.
  { intros target. apply (split_app space (lit "git checkout") target). }
  split.
  { intros name fs. rewrite branch_typed.
    change (lit " ") with [space]. rewrite split_join_flat.
    cbn [flat_map]. rewrite flat_map_app, bare_words_filterBoolean.
    rewrite flat_map_split_pieces by apply tokens_no_space. reflexivity. }
  split.
  { intros hashValue f. unfold reset_invocation.
    change (filterBoolean [defined (lit "git reset"); Some (token f);
                           defined hashValue])
      with (lit "git reset"
              :: (if truthy (token f) then [token f] else [])
              ++ filterBoolean [Some hashValue]).
    rewrite token_truthy. change (lit " ") with [space].
    rewrite split_join_flat. cbn [flat_map app].
    rewrite bare_words_filterBoolean, (@split_piece space (token f));
      [reflexivity|].
    apply token_ok_no_space, token_wf. }
  intros hashValue. unfold reset_invocation.
  change (filterBoolean [defined (lit "git reset"); None; defined hashValue])
    with (lit "git reset" :: filterBoolean [Some hashValue]).
  change (lit " ") with [space].
  rewrite split_join_flat. cbn [flat_map].
  now rewrite bare_words_filterBoolean.
Qed.

(** ** The text a method resolves with *)

(** X6. The text [runCommand] resolves with, and so the text of every
    method that returns the command's output, neither begins nor ends with
    whitespace (so it ends with no line break), and trimming it again
    changes nothing: [exec] called back, and the text is the standard
    output it handed over, trimmed. *)
Theorem resolved_text_is_trimmed (World : Type)
  (exec : jstring -> jstring -> World -> ExecResult * World) (this : Git)
  (cmd : jstring) (w : World) (text : jstring) (w' : World) :
  runCommand exec this cmd w = (Resolved text, w')
  \/ IndexTs.runCommand exec this cmd w = (Resolved text, w') ->
  trim text = text
  /\ (forall c t, text = c :: t -> is_ws c = false)
  /\ (forall t c, text = t ++ [c] -> is_ws c = false)
  /\ (exists child,
         fst (exec cmd (cwd this) w) = CalledBack child
         /\ text = trim (stdout child)).
Proof.
  intros H.
  assert (Htext : exists child,
             fst (exec cmd (cwd this) w) = CalledBack child
             /\ text = trim (stdout child)).
  { unfold runCommand, IndexTs.runCommand in H.
    destruct (exec cmd (cwd this) w) as [[x|child] w1]; simpl.
    - destruct H as [H|H]; discriminate.
    - exists child. split; [reflexivity|].
      destruct (exec_error child); destruct H as [H|H]; congruence. }
  destruct Htext as [child [Hback Htext]].
  destruct (trim_spec (stdout child)) as (l & r & _ & _ & _ & Hfirst & Hlast).
  rewrite <- Htext in Hfirst, Hlast.
  split; [rewrite Htext; apply trim_idempotent|].
  split; [exact Hfirst|]. split; [exact Hlast|].
  exists child. now split.
Qed.

(** The theorem for the branch name a child printed between blanks. *)
Lemma resolved_text_is_trimmed_witness :
  trim (lit "feature x") = lit "feature x".
Proof.
  refine (proj1 (@resolved_text_is_trimmed _ (Scripted.exec script_branch)
                   repo (lit "git rev-parse --abbrev-ref HEAD") []
                   (lit "feature x") _ _)).
  left. reflexivity.
Defined.

Lemma defaultBranchOf_one_line (branches : jstring) :
  ~ In newline (defaultBranchOf branches)
  /\ trim (defaultBranchOf branches) = defaultBranchOf branches.
Proof.
  unfold defaultBranchOf.
  destruct (find _ (split newline branches)) as [line|] eqn:E.
  - destruct (truthy line).
    + split; [|apply trim_idempotent].
      intros Hin. apply In_trim, In_replace_nil in Hin.
      apply find_some in E. destruct E as [E _].
      pose proof (split_no_sep newline branches) as Hall.
      rewrite Forall_forall in Hall. exact (Hall _ E Hin).
    + split; [vm_compute; intuition discriminate | reflexivity].
  - split; [vm_compute; intuition discriminate | reflexivity].
Qed.

(** X7. The name [getDefaultBranchName] resolves with is one trimmed line:
    it holds no line break and neither begins nor ends with whitespace,
    whatever the listing was. *)
Theorem default_branch_is_one_line (World : Type)
  (exec : jstring -> jstring -> World -> ExecResult * World) (this : Git)
  (w : World) (name : jstring) (w' : World) :
  getDefaultBranchName exec this w = (Resolved name, w')
  \/ IndexTs.getDefaultBranchName exec this w = (Resolved name, w') ->
  ~ In newline name
  /\ trim name = name
  /\ (forall c t, name = c :: t -> is_ws c = false)
  /\ (forall t c, name = t ++ [c] -> is_ws c = false).
Proof.
  intros H.
  assert (Hname : exists branches, name = defaultBranchOf branches).
  { unfold getDefaultBranchName, IndexTs.getDefaultBranchName, bind, ret in H.
    destruct H as [H|H].
    - destruct (runCommand exec this _ w) as [[branches|e] w1];
        [|discriminate]. exists branches. congruence.
    - destruct (IndexTs.runCommand exec this _ w) as [[branches|e] w1];
        [|discriminate]. exists branches. congruence. }
  destruct Hname as [branches ->].
  destruct (defaultBranchOf_one_line branches) as [Hnl Htrim].
  destruct (trim_spec (defaultBranchOf branches))
    as (l & r & _ & _ & _ & Hfirst & Hlast).
  rewrite Htrim in Hfirst, Hlast. now repeat split.
Qed.

(** The theorem for the listing of two remotes. *)
Lemma default_branch_is_one_line_witness : ~ In newline (lit "develop").
Proof.
  refine (proj1 (@default_branch_is_one_line _
                   (Scripted.exec script_listing) repo []
                   (lit "develop") _ _)).
  left. reflexivity.
Defined.

(** ** The two sources *)

(** X8. The methods of the entry point settle as the methods of the current
    source do, in the same world: they resolve with the same value, where
    the current source rejects with an [Error] it created the entry point
    rejects with the message of that [Error], and where it rejects with
    what [exec] threw so does the entry point. *)
Theorem entry_point_agrees (World : Type)
  (exec : jstring -> jstring -> World -> ExecResult * World) (this : Git)
  (w : World) :
  (forall cmd,
      IndexTs.runCommand exec this cmd w
      = message_only (runCommand exec this cmd w))
  /\ IndexTs.getUserName exec this w
     = message_only (getUserName exec this w)
  /\ IndexTs.getUserEmail exec this w
     = message_only (getUserEmail exec this w)
  /\ IndexTs.getCurrentBranchName exec this w
     = message_only (getCurrentBranchName exec this w)
  /\ IndexTs.getDefaultBranchName exec this w
     = message_only (getDefaultBranchName exec this w)
  /\ IndexTs.hasNoUnstagedChanges exec this w
     = message_only (hasNoUnstagedChanges exec this w)
  /\ IndexTs.hasNoStagedChanges exec this w
     = message_only (hasNoStagedChanges exec this w)
  /\ IndexTs.hasUpstreamBranch exec this w
     = message_only (hasUpstreamBranch exec this w)
  /\ IndexTs.isWorkingDirClean exec this w
     = message_only (isWorkingDirClean exec this w).
Proof.
  assert (Hrun : forall cmd w0,
             IndexTs.runCommand exec this cmd w0
             = message_only (runCommand exec this cmd w0)).
  { intros cmd w0. unfold IndexTs.runCommand, runCommand, message_only.
    destruct (exec cmd (cwd this) w0) as [[x|child] w1]; [reflexivity|].
    now destruct (exec_error child). }
  assert (Hprobe : forall cmd w0,
             IndexTs.tryCommand
               (fun _ => IndexTs.runCommand exec this cmd) w0
             = message_only
                 (tryCommand (fun _ => runCommand exec this cmd) w0)).
  { intros cmd w0. rewrite IndexTs_tryCommand_collapse, tryCommand_collapse.
    rewrite Hrun. unfold collapse, message_only.
    now destruct (runCommand exec this cmd w0) as [[a|[e|t|x]] w1]. }
  split; [intros cmd; apply Hrun|].
  do 3 (split; [apply Hrun|]).
  split.
  { unfold IndexTs.getDefaultBranchName, getDefaultBranchName, bind, ret.
    rewrite Hrun. unfold message_only.
    now destruct (runCommand exec this _ w) as [[a|[e|t|x]] w1]. }
  do 3 (split; [apply Hprobe|]).
  unfold IndexTs.isWorkingDirClean, isWorkingDirClean,
    IndexTs.hasNoUnstagedChanges, hasNoUnstagedChanges,
    IndexTs.hasNoStagedChanges, hasNoStagedChanges, bind, ret.
  rewrite Hprobe.
  destruct (tryCommand_resolves (fun _ => runCommand exec this
                                            (lit "git diff --quiet")) w)
    as [b1 [w1 H1]].
  rewrite H1. simpl. rewrite Hprobe.
  destruct (tryCommand_resolves
              (fun _ => runCommand exec this
                          (lit "git diff --cached --quiet")) w1)
    as [b2 [w2 H2]].
  now rewrite H2.
Qed.

(** ** More on the commit message *)

(** X9. Two different messages give two different [commit] invocations,
    under the same flags: the escaping loses nothing of the message. *)
Theorem commit_message_injective (message1 message2 : jstring)
  (flags : option jsvalue) :
  message1 <> message2 ->
  commit_invocation message1 flags <> commit_invocation message2 flags.
Proof.
  intros Hne Heq. apply Hne. unfold commit_invocation in Heq.
  apply app_inv_head in Heq. apply app_inv_head in Heq.
  rewrite !app_assoc in Heq. apply app_inv_tail in Heq.
  apply app_inv_tail in Heq.
  rewrite <- (unescape_escape_quotes message1).
  rewrite <- (unescape_escape_quotes message2).
  unfold escape_quotes. now rewrite Heq.
Qed.

(** The theorem for a message and the same message in double quotes. *)
Lemma commit_message_injective_witness :
  commit_invocation (lit "wip") None
  <> commit_invocation ([dquote] ++ lit "wip" ++ [dquote]) None.
Proof.
  apply commit_message_injective. discriminate.
Defined.

(** X10. Only double quotes are escaped: a message that holds none stands
    between the outer quotes as it was given, its backslashes, dollar signs
    and backquotes included, and a message that ends with a backslash puts
    that backslash right before the closing quote. *)
Theorem commit_escapes_quotes_only (message : jstring) :
  ~ In dquote message ->
  commit_invocation message None
  = lit "git commit -m " ++ [dquote] ++ message ++ [dquote]
  /\ (forall fs : list CommitFlag,
         commit_invocation message (Some (flagList fs))
         = lit "git commit -m " ++ [dquote] ++ message ++ [dquote]
             ++ lit " " ++ join (lit " ") (map token fs))
  /\ commit_invocation (message ++ [backslash]) None
     = lit "git commit -m " ++ [dquote] ++ message
         ++ [backslash; dquote].
Proof.
  intros Hq. unfold commit_invocation.
  change (replace_g dquote [backslash; dquote]) with escape_quotes.
  rewrite escape_quotes_app, (@escape_quotes_without_quote message Hq).
  repeat split. cbn [escape_quotes replace_g flat_map N.eqb].
  now rewrite app_nil_r, <- !app_assoc.
Qed.

(** The theorem for a message that holds a command substitution. *)
Lemma commit_escapes_quotes_only_witness :
  commit_invocation (lit "fix $(rm -rf ~) `id`") None
  = lit "git commit -m " ++ [dquote] ++ lit "fix $(rm -rf ~) `id`"
      ++ [dquote].
Proof.
  refine (proj1 (@commit_escapes_quotes_only (lit "fix $(rm -rf ~) `id`") _)).
  vm_compute. intuition discriminate.
Defined.

(** ** The words of the invocations that take paths and remotes *)

Lemma split_flags_before (fs : list PushFlag) (rest : jstring) :
  split space (flags_before (map token fs) ++ rest)
  = map token fs ++ split space rest.
Proof.
  destruct fs as [|f fs]; [reflexivity|].
  change (flags_before (map token (f :: fs)))
    with (join (lit " ") (map token (f :: fs)) ++ lit " ").
  rewrite <- app_assoc.
  change (lit " " ++ rest) with (space :: rest).
  rewrite split_app.
  now rewrite (split_join_tokens f fs).
Qed.

Lemma split_branch_after (remote branch : jstring) :
  split space (remote ++ branch_after branch)
  = split space remote ++ bare_words (Some branch).
Proof.
  destruct branch as [|c t]; simpl.
  - now rewrite !app_nil_r.
  - apply split_app.
Qed.

(** X11. Paths, targets, URLs, remotes and branches stand bare in the
    invocation, each where the method puts it. Read at its spaces, the
    invocation of [add] is [git], [add], the words of the paths and an
    empty last word (the closing space); that of [restore] is [git],
    [restore], the flag when there is one, and the words of the targets.
    The words of the paths or targets are [.] when they are omitted, the
    words of the string when one string is given, and the words of each
    element in order when a list is given. The invocation of [clone] is
    [git], [clone], the words of the URL and of the directory; that of
    [push] is [git], [push], the flags, the words of the remote, and those
    of the branch when there is one. A space inside a path or a name starts
    a new word. *)
Theorem path_and_remote_words :
  (forall path,
      split space (add_invocation path)
      = [lit "git"; lit "add"] ++ bare_paths path ++ [[]])
  /\ (forall target flag,
         split space (restore_invocation target flag)
         = [lit "git"; lit "restore"] ++ bare_words flag
             ++ bare_paths target)
  /\ (forall url dir,
         split space (clone_invocation url dir)
         = [lit "git"; lit "clone"] ++ split space url
             ++ split space (param dir []))
  /\ (forall remote branch (fs : list PushFlag),
         split space
           (push_invocation (Some (Str remote)) (Some (Str branch))
              (Some (flagList fs)))
         = [lit "git"; lit "push"] ++ map token fs ++ split space remote
             ++ bare_words (Some branch))
  /\ (forall remote (fs : list PushFlag) flags,
         split space
           (push_invocation (Some (Str remote)) (Some (flagList fs)) flags)
         = [lit "git"; lit "push"] ++ map token fs ++ split space remote)
  /\ (forall (fs : list PushFlag) branch flags,
         split space (push_invocation (Some (flagList fs)) branch flags)
         = [lit "git"; lit "push"] ++ map token fs ++ [lit "origin"])
  /\ split space (push_invocation None None None)
     = [lit "git"; lit "push"; lit "origin"].
Proof.
  assert (Hadd : forall normalizedPath,
             split space (lit "git add " ++ normalizedPath ++ lit " ")
             = [lit "git"; lit "add"] ++ split space normalizedPath ++ [[]]).
  { intros p.
    change (lit "git add " ++ p ++ lit " ")
      with (lit "git add" ++ space :: (p ++ space :: [])).
    now rewrite !split_app. }
  assert (Hrestore : forall flag normalizedTarget,
             split space
               (lit "git restore"
                  ++ match flag with
                     | Some f => if truthy f then lit " " ++ f else []
                     | None => []
                     end ++ lit " " ++ normalizedTarget)
             = [lit "git"; lit "restore"] ++ bare_words flag
                 ++ split space normalizedTarget).
  { intros [[|c f]|] t; cbn [truthy bare_words].
    - apply (split_app space (lit "git restore") t).
    - change (lit "git restore" ++ (lit " " ++ c :: f) ++ lit " " ++ t)
        with (lit "git restore" ++ space :: ((c :: f) ++ space :: t)).
      now rewrite !split_app.
    - apply (split_app space (lit "git restore") t). }
  split.
  { intros [[path|[|path paths]]|]; unfold add_invocation;
      cbv beta iota zeta delta [param]; rewrite Hadd; try reflexivity.
    change (lit " ") with [space]. now rewrite split_join_flat. }
  split.
  { intros [[target|[|target targets]]|] flag; unfold restore_invocation;
      cbv beta iota zeta delta [param]; rewrite Hrestore; try reflexivity.
    change (lit " ") with [space]. now rewrite split_join_flat. }
  split.
  { intros url dir. unfold clone_invocation.
    change (lit "git clone " ++ url ++ lit " " ++ param dir [])
      with (lit "git clone" ++ space :: (url ++ space :: param dir [])).
    now rewrite !split_app. }
  split.
  { intros remote branch fs. rewrite push_remote_branch.
    change (lit "git push " ++ ?x) with (lit "git push" ++ space :: x).
    rewrite split_app. unfold flagList, supplied.
    now rewrite split_flags_before, split_branch_after. }
  split.
  { intros remote fs flags. unfold flagList.
    rewrite push_flag_list_second.
    change (lit "git push " ++ ?x) with (lit "git push" ++ space :: x).
    now rewrite split_app, split_flags_before. }
  split; [|reflexivity].
  intros fs branch flags. unfold flagList. rewrite push_flag_list_first.
  change (lit "git push " ++ ?x) with (lit "git push" ++ space :: x).
  now rewrite split_app, split_flags_before.
Qed.
